(** * Verification of [miles.analyze]

    The repository's source is the orchestration function [analyze] of
    [src/miles/analyze.py].  It receives a [TransitionKernel] object and six
    file names, calls four operations of package [miles] in a fixed order and
    returns the attribute [kernel.matrices.mfpt].

    The first part of this development embeds [analyze] in a small
    state-and-exception monad that also records every call made to package
    [miles].  The operations of [miles] are not part of the source; they are
    the fields of the record [miles_api], so every theorem about [analyze]
    holds for every implementation of them.

    The second part models the numerical core (stationary solve, local and
    global mean first-passage times) from the specification, over exact
    rationals, and settles the numerical statements against that model. *)

From Stdlib Require Import PrimFloat QArith Qcanon Qcabs Lqa Lia.
From stdpp Require Import gmap strings list numbers.

Set Default Proof Using "Type".

(** ** Exceptions *)

(** Modelled from the spec: the exception classes of the error taxonomy
    ([DataError], [SolverError], [UnreachableError], [PersistenceError]);
    they are raised inside package [miles], which is not under [src/]. *)
Inductive exn : Set :=
| DataError
| SolverError
| UnreachableError
| PersistenceError.

(** The outcome of a Python call: a value, or a raised exception. *)
Inductive outcome (A : Type) : Type :=
| Return (a : A)
| Raise (e : exn).
Arguments Return {A} a.
Arguments Raise {A} e.

(** ** The orchestration layer *)

Section Orchestration.

(** The state of the [TransitionKernel] object, its [matrices] bundle, the
    distributions object, the auxiliary quantity [q] and the content of a
    file are opaque to [analyze]. *)
Context {Kernel Matrices Distributions Aux Content : Type}.

(** What [analyze] can affect: the kernel object it was handed (Python
    passes it by reference, so what the callees do to it is visible to the
    caller) and the files on disk, by name. *)
Record world : Type := World {
  kernel : Kernel;
  files : gmap string Content
}.

(** A call into package [miles]: it yields an outcome and the world it
    leaves behind, also when it raises. *)
Definition operation (A : Type) : Type := world -> outcome A * world.

(** The part of package [miles] that [analyze] uses. *)
Record miles_api : Type := MilesApi {
  (** [kernel.save_distributions()] *)
  TransitionKernel_save_distributions : operation unit;
  (** [kernel.compute_distributions()] *)
  TransitionKernel_compute_distributions : operation (Distributions * Aux);
  (** [miles.save_distributions(distributions, path)] *)
  save_distributions : Distributions -> string -> operation unit;
  (** [kernel.matrices.save(transition, lag_time, flux, mfpt, probability)] *)
  Matrices_save :
    string -> string -> string -> string -> string -> operation unit;
  (** attribute [kernel.matrices] *)
  matrices : Kernel -> Matrices;
  (** attribute [matrices.mfpt] *)
  mfpt : Matrices -> float
}.

(** The calls [analyze] makes, with their arguments. *)
Inductive call : Type :=
| KernelSaveDistributions
| KernelComputeDistributions
| SaveDistributions (distributions : Distributions) (path : string)
| MatricesSave (transition_path lag_time_path flux_path mfpt_path
                probability_path : string).

(** Computations: state, exceptions and a chronological log of calls. *)
Definition M (A : Type) : Type :=
  world -> list call -> outcome A * world * list call.

#[export] Instance M_ret : MRet M := fun A a w l => (Return a, w, l).

#[export] Instance M_bind : MBind M := fun A B f m w l =>
  match m w l with
  | (Return a, w', l') => f a w' l'
  | (Raise e, w', l') => (Raise e, w', l')
  end.

(** A call is logged when it is made, then run. *)
Definition invoke {A} (c : call) (op : operation A) : M A :=
  fun w l => let '(r, w') := op w in (r, w', l ++ [c]).

(** Reading the kernel object. *)
Definition read_kernel : M Kernel := fun w l => (Return (kernel w), w, l).

(** An execution starts with an empty log. *)
Definition run {A} (m : M A) (w : world) : outcome A * world * list call :=
  m w [].

(** [analyze], statement by statement.  The parameter [kernel] of the
    source is the kernel object of the world. *)
Definition analyze (api : miles_api)
    (stationary_distributions : string)
    (transition_matrix lag_time_matrix : string)
    (stationary_flux local_mfpts : string)
    (stationary_probability : string) : M float :=
  invoke KernelSaveDistributions
         (TransitionKernel_save_distributions api) ;;
  '(distributions, q) ←
    invoke KernelComputeDistributions
           (TransitionKernel_compute_distributions api) ;
  invoke (SaveDistributions distributions stationary_distributions)
         (save_distributions api distributions stationary_distributions) ;;
  invoke (MatricesSave transition_matrix lag_time_matrix
                       stationary_flux local_mfpts stationary_probability)
         (Matrices_save api transition_matrix lag_time_matrix
                        stationary_flux local_mfpts stationary_probability) ;;
  k ← read_kernel ;
  mret (mfpt api (matrices api k)).

(** *** Observations on the log *)

Definition is_solve (c : call) : bool :=
  match c with KernelComputeDistributions => true | _ => false end.

Definition is_save_distributions (c : call) : bool :=
  match c with SaveDistributions _ _ => true | _ => false end.

Definition is_matrices_save (c : call) : bool :=
  match c with MatricesSave _ _ _ _ _ => true | _ => false end.

(** Every operation but the solve persists something: the kernel's own
    [save_distributions()], [save_distributions(distributions, path)] and
    [matrices.save(...)]. *)
Definition is_persistence_write (c : call) : bool := negb (is_solve c).

(** The two of them that write to destinations named by the caller. *)
Definition is_path_write (c : call) : bool :=
  is_save_distributions c || is_matrices_save c.

(** "The solve completes before any write of the given kind is performed":
    every such call of the log comes after every solve of the log. *)
Definition solve_before (writes : call -> bool) (l : list call) : Prop :=
  forall i j c,
    l !! i = Some c -> writes c = true ->
    l !! j = Some KernelComputeDistributions -> (j < i)%nat.

(** *** What the spec says of the operations *)

(** Modelled from the spec: the bodies of [save_distributions] and
    [matrices.save] are not under [src/]; the spec has the kernel and its
    derived matrices immutable once constructed, so the two persistence
    operations that take destination paths leave the kernel object as it is,
    whether they return or raise. *)
Definition persistence_preserves_kernel (api : miles_api) : Prop :=
  (forall d p w, kernel (save_distributions api d p w).2 = kernel w) /\
  (forall tp lp fp mp pp w,
      kernel (Matrices_save api tp lp fp mp pp w).2 = kernel w).

(** Modelled from the spec: the methods of [TransitionKernel] are not under
    [src/]; the spec has the kernel "not mutated in place after
    construction" and "immutable once constructed", so no operation of the
    package changes the kernel object, whether it returns or raises. *)
Definition immutable_kernel (api : miles_api) : Prop :=
  (forall w, kernel (TransitionKernel_save_distributions api w).2 = kernel w) /\
  (forall w,
      kernel (TransitionKernel_compute_distributions api w).2 = kernel w) /\
  persistence_preserves_kernel api.

End Orchestration.

Arguments world : clear implicits.
Arguments miles_api : clear implicits.
Arguments call : clear implicits.
Arguments operation : clear implicits.

(** ** An implementation of the operations

    A small implementation of [miles_api], used to run [analyze] on concrete
    worlds.  Every file holds a table of floating-point numbers. *)

Record example_matrices : Type := ExampleMatrices {
  ex_transition : list (list float);
  ex_lag_time : list (list float);
  ex_flux : list float;
  ex_local_mfpts : list float;
  ex_probability : list float;
  ex_mfpt : float
}.

(** The kernel knows the database it was built from, the first-hitting
    distributions collected there, whether its transition matrix has several
    recurrent classes, and its result bundle. *)
Record example_kernel : Type := ExampleKernel {
  ex_database : string;
  ex_hitting : list (list float);
  ex_reducible : bool;
  ex_residence : list float;
  ex_matrices : example_matrices
}.

Abbreviation example_world := (world example_kernel (list (list float))).
Abbreviation example_operation := (operation example_kernel (list (list float))).

(** Writing a table to a named file overwrites the file; the empty name
    cannot be opened. *)
Definition write_file (path : string) (table : list (list float))
  : example_operation unit :=
  fun w =>
    if decide (path = "") then (Raise PersistenceError, w)
    else (Return tt, World (kernel w) (<[path := table]> (files w))).

Definition and_then (a b : example_operation unit) : example_operation unit :=
  fun w =>
    match a w with
    | (Return _, w') => b w'
    | (Raise e, w') => (Raise e, w')
    end.

(** [kernel.save_distributions()] stores the first-hitting distributions in
    the kernel's database. *)
Definition ex_kernel_save_distributions : example_operation unit :=
  fun w => write_file (ex_database (kernel w)) (ex_hitting (kernel w)) w.

(** [kernel.compute_distributions()] fails on a reducible kernel. *)
Definition ex_compute_distributions
  : example_operation (list float * list float) :=
  fun w =>
    if ex_reducible (kernel w) then (Raise SolverError, w)
    else (Return (ex_probability (ex_matrices (kernel w)),
                  ex_residence (kernel w)), w).

Definition ex_save_distributions (distributions : list float) (path : string)
  : example_operation unit :=
  write_file path [distributions].

(** [matrices.save] writes its five tensors one after the other. *)
Definition ex_matrices_save
    (transition_path lag_time_path flux_path mfpt_path probability_path : string)
  : example_operation unit :=
  fun w =>
    let m := ex_matrices (kernel w) in
    and_then (write_file transition_path (ex_transition m))
   (and_then (write_file lag_time_path (ex_lag_time m))
   (and_then (write_file flux_path [ex_flux m])
   (and_then (write_file mfpt_path [ex_local_mfpts m])
             (write_file probability_path [ex_probability m])))) w.

Definition example_api
  : miles_api example_kernel example_matrices (list float) (list float)
              (list (list float)) :=
  {| TransitionKernel_save_distributions := ex_kernel_save_distributions;
     TransitionKernel_compute_distributions := ex_compute_distributions;
     save_distributions := ex_save_distributions;
     Matrices_save := ex_matrices_save;
     matrices := ex_matrices;
     mfpt := ex_mfpt |}.

(** Two milestones feeding each other: milestone 0 is the reactant and
    milestone 1 the product. *)
Definition cycle_matrices : example_matrices :=
  {| ex_transition := [[0; 1]; [1; 0]];
     ex_lag_time := [[0; 2]; [4; 0]];
     ex_flux := [0.25; 0.125];
     ex_local_mfpts := [2; 0];
     ex_probability := [0.5; 0.5];
     ex_mfpt := 2 |}%float.

Definition cycle_kernel (reducible : bool) : example_kernel :=
  {| ex_database := "simulation.db";
     ex_hitting := [[0; 1]; [1; 0]]%float;
     ex_reducible := reducible;
     ex_residence := [2; 4]%float;
     ex_matrices := cycle_matrices |}.

(** A world with an empty disk and a kernel whose solve succeeds, and one
    whose solve fails. *)
Definition solvable_world : example_world := World (cycle_kernel false) ∅.
Definition reducible_world : example_world := World (cycle_kernel true) ∅.

(** ** Further observations on [analyze] *)

(** The four operations of package [miles] that [analyze] calls. *)
Inductive operation_name : Set :=
| TheKernelSave
| TheSolve
| TheDistributionsSave
| TheMatricesSave.

(** The operation a call goes to, whatever its arguments. *)
Definition operation_of {Distributions : Type}
    (c : call Distributions) : operation_name :=
  match c with
  | KernelSaveDistributions => TheKernelSave
  | KernelComputeDistributions => TheSolve
  | SaveDistributions _ _ => TheDistributionsSave
  | MatricesSave _ _ _ _ _ => TheMatricesSave
  end.

(** The operations in the order of the source. *)
Definition operations_in_order : list operation_name :=
  [TheKernelSave; TheSolve; TheDistributionsSave; TheMatricesSave].

(** The same operations, with the auxiliary quantity that the solve returns
    replaced by [g] of it. *)
Definition with_aux {Kernel Matrices Distributions Aux Aux' Content : Type}
    (g : Aux -> Aux')
    (api : miles_api Kernel Matrices Distributions Aux Content)
  : miles_api Kernel Matrices Distributions Aux' Content :=
  {| TransitionKernel_save_distributions :=
       TransitionKernel_save_distributions api;
     TransitionKernel_compute_distributions := fun w =>
       match TransitionKernel_compute_distributions api w with
       | (Return (d, q), w') => (Return (d, g q), w')
       | (Raise e, w') => (Raise e, w')
       end;
     save_distributions := save_distributions api;
     Matrices_save := Matrices_save api;
     matrices := matrices api;
     mfpt := mfpt api |}.

(** Every operation of the package takes a world to one related to it by
    [R], whether it returns or raises. *)
Definition operations_respect {Kernel Matrices Distributions Aux Content : Type}
    (R : world Kernel Content -> world Kernel Content -> Prop)
    (api : miles_api Kernel Matrices Distributions Aux Content) : Prop :=
  (forall w, R w (TransitionKernel_save_distributions api w).2) /\
  (forall w, R w (TransitionKernel_compute_distributions api w).2) /\
  (forall d p w, R w (save_distributions api d p w).2) /\
  (forall tp lp fp mp pp w, R w (Matrices_save api tp lp fp mp pp w).2).

(** No file of the first world is missing from the second. *)
Definition keeps_files (w w' : example_world) : Prop :=
  dom (files w) ⊆ dom (files w').

(** A world whose disk already holds a file. *)
Definition noted_world : example_world :=
  World (cycle_kernel false) {[ "notes.txt" := [[1]]%float ]}.

(** ** Implementations that store into the kernel

    The methods of the kernel and the two save functions are not under
    [src/], and Python lets every one of them store into the kernel object
    it reaches.  The implementations below do so. *)

Definition set_mfpt (x : float) (k : example_kernel) : example_kernel :=
  {| ex_database := ex_database k;
     ex_hitting := ex_hitting k;
     ex_reducible := ex_reducible k;
     ex_residence := ex_residence k;
     ex_matrices :=
       {| ex_transition := ex_transition (ex_matrices k);
          ex_lag_time := ex_lag_time (ex_matrices k);
          ex_flux := ex_flux (ex_matrices k);
          ex_local_mfpts := ex_local_mfpts (ex_matrices k);
          ex_probability := ex_probability (ex_matrices k);
          ex_mfpt := x |} |}.

(** The operation [op], which then stores [x] as the [mfpt] attribute of the
    bundle. *)
Definition stamp {A : Type} (x : float) (op : example_operation A)
  : example_operation A :=
  fun w => let '(r, w') := op w in
           (r, World (set_mfpt x (kernel w')) (files w')).

(** The stamp of an operation that was given a destination: 7 for the usual
    name, 9 for any other. *)
Definition path_stamp (usual path : string) : float :=
  if decide (path = usual) then 7%float else 9%float.

(** The example implementation, except that the operation [which] stamps
    the bundle when it is done. *)
Definition stamping_api (which : operation_name)
  : miles_api example_kernel example_matrices (list float) (list float)
              (list (list float)) :=
  {| TransitionKernel_save_distributions :=
       match which with
       | TheKernelSave => stamp 7%float ex_kernel_save_distributions
       | _ => ex_kernel_save_distributions
       end;
     TransitionKernel_compute_distributions :=
       match which with
       | TheSolve => stamp 7%float ex_compute_distributions
       | _ => ex_compute_distributions
       end;
     save_distributions := fun d path =>
       match which with
       | TheDistributionsSave =>
           stamp (path_stamp "distributions.dat" path)
                 (ex_save_distributions d path)
       | _ => ex_save_distributions d path
       end;
     Matrices_save := fun tp lp fp mp pp =>
       match which with
       | TheMatricesSave =>
           stamp (path_stamp "local_mfpts.dat" mp)
                 (ex_matrices_save tp lp fp mp pp)
       | _ => ex_matrices_save tp lp fp mp pp
       end;
     matrices := ex_matrices;
     mfpt := ex_mfpt |}.

(** A solve that takes the global MFPT from the file ["mfpt.cache"] left on
    the disk by an earlier analysis, when there is one, and fills the bundle
    with it. *)
Definition caching_compute_distributions
  : example_operation (list float * list float) :=
  fun w =>
    match files w !! "mfpt.cache" with
    | Some table => stamp (hd 0%float (hd [] table)) ex_compute_distributions w
    | None => ex_compute_distributions w
    end.

Definition caching_api
  : miles_api example_kernel example_matrices (list float) (list float)
              (list (list float)) :=
  {| TransitionKernel_save_distributions := ex_kernel_save_distributions;
     TransitionKernel_compute_distributions := caching_compute_distributions;
     save_distributions := ex_save_distributions;
     Matrices_save := ex_matrices_save;
     matrices := ex_matrices;
     mfpt := ex_mfpt |}.

(** The solvable kernel next to a cache that holds [x]. *)
Definition cached_world (x : float) : example_world :=
  World (cycle_kernel false) {[ "mfpt.cache" := [[x]] ]}.

(* ================================================================== *)
(** * The numerical core, modelled from the spec

    The kernel's solve and the MFPT engine are not under [src/].  They are
    modelled here from the specification, over the rationals [Qc]: exact
    arithmetic stands for the floating-point arithmetic of the program, so
    rounding is left out.  An undefined result is [None], never a number. *)

Open Scope Qc_scope.

Abbreviation vector := (list Qc).
Abbreviation matrix := (list (list Qc)).

(** A linear equation [coefficients . x = right-hand side]. *)
Abbreviation equation := (list Qc * Qc)%type.

(** Integers as rationals. *)
Definition of_Z (n : Z) : Qc := Q2Qc (inject_Z n).
Coercion of_Z : Z >-> Qc.

Fixpoint dot (u v : vector) : Qc :=
  match u, v with
  | a :: u', b :: v' => a * b + dot u' v'
  | _, _ => 0
  end.

Definition total (v : vector) : Qc := foldr Qcplus 0 v.

Definition entry (A : matrix) (i j : nat) : Qc := nth j (nth i A []) 0.

Definition column (A : matrix) (j : nat) : vector :=
  map (fun row => nth j row 0) A.

Definition unit_row (N i : nat) : vector :=
  map (fun j => if decide (i = j) then 1 else 0) (seq 0 N).

Definition is_square (N : nat) (A : matrix) : bool :=
  bool_decide (length A = N) &&
  forallb (fun row => bool_decide (length row = N)) A.

(** *** Gaussian elimination

    Modelled from the spec: the "direct dense linear algebra (Gaussian
    elimination)" shared by the stationary solve and the MFPT solve; the
    solver is not under [src/].  [gauss n eqs] solves [n] equations in [n]
    unknowns: it picks the first equation whose leading coefficient is not
    zero, removes the leading unknown from the others, solves what is left
    and substitutes back.  A system without a pivot in some column is
    singular and has no unique solution: [None]. *)

Fixpoint find_pivot (eqs : list equation)
  : option (equation * list equation) :=
  match eqs with
  | [] => None
  | e :: rest =>
      match e.1 with
      | a :: _ =>
          if decide (a = 0)
          then '(p, others) ← find_pivot rest; Some (p, e :: others)
          else Some (e, rest)
      | [] => None
      end
  end.

Definition eliminate (p e : equation) : equation :=
  match p.1, e.1 with
  | a :: ps, b :: es =>
      let f := b / a in
      (zip_with (fun x y => x - f * y) es ps, e.2 - f * p.2)
  | _, _ => e
  end.

Fixpoint gauss (n : nat) (eqs : list equation) : option vector :=
  match n with
  | O => match eqs with [] => Some [] | _ :: _ => None end
  | S n' =>
      '(p, others) ← find_pivot eqs;
      xs ← gauss n' (map (eliminate p) others);
      match p.1 with
      | a :: ps => Some ((p.2 - dot ps xs) / a :: xs)
      | [] => None
      end
  end.

(** An equation holds at a point. *)
Definition holds (xs : vector) (e : equation) : Prop := dot e.1 xs = e.2.

(** Every equation has [n] coefficients. *)
Definition well_formed (n : nat) (eqs : list equation) : Prop :=
  Forall (fun e => length e.1 = n) eqs.

(** Scaling the right-hand sides of a system. *)
Definition scale_rhs (k : Qc) (e : equation) : equation := (e.1, k * e.2).

(** [sum_below n f] is [f 0 + ... + f (n - 1)]. *)
Fixpoint sum_below (n : nat) (f : nat -> Qc) : Qc :=
  match n with
  | O => 0
  | S n' => f 0%nat + sum_below n' (fun j => f (S j))
  end.

(** A system has exactly one solution. *)
Definition unique_solution (n : nat) (eqs : list equation) : Prop :=
  exists xs, length xs = n /\ Forall (holds xs) eqs /\
    forall ys, length ys = n -> Forall (holds ys) eqs -> ys = xs.

(** *** The transition kernel *)

(** Modelled from the spec: the data model of [TransitionKernel], whose class
    is not under [src/]: the transition matrix [P], the lag-time matrix
    [tau], and the reactant and product milestones, milestones being indices
    into the matrices. *)
Record transition_kernel : Type := TransitionKernel {
  tk_P : matrix;
  tk_tau : matrix;
  tk_reactant : list nat;
  tk_product : list nat
}.

Definition milestones (K : transition_kernel) : nat := length (tk_P K).

(** Modelled from the spec: the invariants of the data model that the solves
    rely on: [P] and [tau] are N x N, [P] has no negative entry, and every
    row of [P] that is not a product row sums to 1. *)
Definition valid_kernel (K : transition_kernel) : Prop :=
  is_square (milestones K) (tk_P K) = true /\
  is_square (milestones K) (tk_tau K) = true /\
  (forall i row, tk_P K !! i = Some row -> Forall (Qcle 0) row) /\
  (forall i row, tk_P K !! i = Some row -> i ∉ tk_product K ->
                 total row = 1).

(** Modelled from the spec: a row of [P]: no negative entry, and a sum of 1,
    or of 0 in the row of a declared product milestone ("rows sum to 1,
    except absorbing/terminal rows which may sum to 0"; "a milestone with
    zero observed transitions that is not a declared product milestone" is a
    [DataError]). *)
Definition probability_row (product : list nat) (i : nat) (row : vector)
  : bool :=
  forallb (fun x => bool_decide (0 <= x)) row &&
  (bool_decide (total row = 1) ||
   (bool_decide (i ∈ product) && bool_decide (total row = 0))).

(** Modelled from the spec: the check that precedes every solve; when it
    fails the data is malformed ([DataError], "surfaced to the caller before
    any solve is attempted"). *)
Definition valid_matrices (P tau : matrix) (product : list nat) : bool :=
  is_square (length P) P && is_square (length P) tau &&
  forallb id (imap (probability_row product) P).

(** Modelled from the spec: lag times are elapsed times, so not negative. *)
Definition nonnegative_lag_times (K : transition_kernel) : Prop :=
  forall i row, tk_tau K !! i = Some row -> Forall (Qcle 0) row.

(** A milestone has a finite path to the set [target] when it is in the set
    or has a transition of positive probability to a milestone that has one.
    The milestones of [stop] end a path: no transition out of them is
    followed. *)
Inductive reaches (P : matrix) (stop target : list nat) : nat -> Prop :=
| reaches_here i :
    i ∈ target -> (i < length P)%nat -> reaches P stop target i
| reaches_step i j :
    i ∉ stop -> 0 < entry P i j -> reaches P stop target j ->
    reaches P stop target i.

(** A finite path to the product set. *)
Definition reaches_product (K : transition_kernel) : nat -> Prop :=
  reaches (tk_P K) [] (tk_product K).

(** Before its first passage through the product set, the process started
    at [i] visits no milestone that has no path to the product set. *)
Definition never_trapped (K : transition_kernel) (i : nat) : Prop :=
  forall j, reaches (tk_P K) (tk_product K) [j] i -> reaches_product K j.

(** Every transition that a milestone outside the product set can make
    takes a positive time. *)
Definition positive_lag_times (K : transition_kernel) : Prop :=
  forall i j, i ∉ tk_product K ->
    0 < entry (tk_P K) i j -> 0 < entry (tk_tau K) i j.

(** Modelled from the spec: a row-stochastic transition matrix: no negative
    entry, every row sums to 1. *)
Definition stochastic (P : matrix) : Prop :=
  forall i row, P !! i = Some row -> Forall (Qcle 0) row /\ total row = 1.

(** No negative entry, and no row that sums to more than 1. *)
Definition substochastic (P : matrix) : Prop :=
  forall i row, P !! i = Some row -> Forall (Qcle 0) row /\ total row <= 1.

(** [pi = pi P]: [sum_i pi_i P_ij = pi_j] for every milestone [j]. *)
Definition balanced (P : matrix) (pi : vector) : Prop :=
  forall j, (j < length P)%nat -> dot (column P j) pi = nth j pi 0.

(** Modelled from the spec: a stationary distribution of [P]: a vector over
    the milestones without negative entry that sums to 1 and solves
    [pi = pi P]. *)
Definition stationary_distribution (P : matrix) (pi : vector) : Prop :=
  length pi = length P /\ Forall (Qcle 0) pi /\ total pi = 1 /\
  balanced P pi.

(** *** Stationary solve *)

(** Modelled from the spec: the stationary system [pi (I - P) = 0] with the
    normalisation [sum pi = 1] put in place of one redundant equation (the
    last).  Equation [j] reads [pi_j - sum_i P_ij pi_i = 0]. *)
Definition stationary_equation (N : nat) (P : matrix) (j : nat) : equation :=
  if decide (S j = N) then (replicate N 1, 1)
  else (zip_with Qcminus (unit_row N j) (column P j), 0).

Definition stationary_system (P : matrix) : list equation :=
  map (stationary_equation (length P) P) (seq 0 (length P)).

(** Modelled from the spec: the balance equation that the normalisation has
    taken the place of, "one redundant equation", holds. *)
Definition left_out_holds (P : matrix) (x : vector) : bool :=
  bool_decide (dot (column P (pred (length P))) x = nth (pred (length P)) x 0).

(** Entries driven below zero are clamped to zero. *)
Definition clamp (x : Qc) : Qc := if decide (x < 0) then 0 else x.

(** Renormalisation to total 1; a zero vector cannot be normalised. *)
Definition normalize (v : vector) : option vector :=
  let s := total v in
  if decide (s = 0) then None else Some (map (fun x => x / s) v).

(** The auxiliary quantity: the residence-time weight of each milestone, its
    mean lifetime [sum_j P_ij tau_ij]. *)
Definition residence_weights (P tau : matrix) : vector :=
  zip_with dot P tau.

(** Modelled from the spec: [compute_distributions() -> (pi, q)] of
    [TransitionKernel], which is not under [src/]: check the data, solve
    [pi (I - P) = 0] subject to [sum pi = 1] by Gaussian elimination with the
    normalisation in place of the last balance equation, clamp, renormalise,
    and pair the result with the auxiliary quantity.  The equation left out
    has to be redundant: when it does not hold at the solution the system
    has no solution at all.  Malformed data ([DataError]) and a system
    without exactly one solution ([SolverError]) yield [None]. *)
Definition compute_distributions (K : transition_kernel)
  : option (vector * vector) :=
  if valid_matrices (tk_P K) (tk_tau K) (tk_product K) then
    raw ← gauss (milestones K) (stationary_system (tk_P K));
    if left_out_holds (tk_P K) raw then
      pi ← normalize (map clamp raw);
      Some (pi, residence_weights (tk_P K) (tk_tau K))
    else None
  else None.

(** *** Mean first-passage times *)

(** Modelled from the spec: the first-step recursion
    [m_i = sum_j P_ij (tau_ij + m_j)] for a milestone [i] outside the
    absorbing set, and [m_j = 0] inside it, as one linear system over all
    milestones: [m_i - sum_j P_ij m_j = sum_j P_ij tau_ij]. *)
Definition mfpt_equation (N : nat) (absorbing : list nat) (i : nat)
    (rows : vector * vector) : equation :=
  if bool_decide (i ∈ absorbing) then (unit_row N i, 0)
  else (zip_with Qcminus (unit_row N i) rows.1, dot rows.1 rows.2).

Definition mfpt_system (P tau : matrix) (absorbing : list nat)
  : list equation :=
  imap (mfpt_equation (length P) absorbing) (zip P tau).

(** Modelled from the spec: the solve of the recursion "via the same
    linear-algebra machinery" as the stationary solve. *)
Definition mfpt_solve (P tau : matrix) (absorbing : list nat)
  : option vector :=
  let N := length P in
  if is_square N P && is_square N tau
  then gauss N (mfpt_system P tau absorbing)
  else None.

(** Modelled from the spec: the search for the milestones from which "no
    path exists" to the product set, which the MFPT engine has to report.
    One round of the search for the milestones with a path to [R]: those of
    [R], and those outside [stop] with a transition of positive probability
    into [R]. *)
Definition reach_step (P : matrix) (stop R : list nat) : list nat :=
  List.filter
    (fun i =>
       bool_decide (i ∈ R) ||
       (negb (bool_decide (i ∈ stop)) &&
        existsb (fun j => bool_decide (0 < entry P i j) && bool_decide (j ∈ R))
                (seq 0 (length P))))
    (seq 0 (length P)).

(** The milestones with a path to [target]: N rounds from the milestones of
    [target]. *)
Definition can_reach (P : matrix) (stop target : list nat) : list nat :=
  Nat.iter (length P) (reach_step P stop)
    (List.filter (fun i => bool_decide (i ∈ target)) (seq 0 (length P))).

(** Modelled from the spec: the milestones without a path to the product
    set. *)
Definition trapped (P : matrix) (product : list nat) : list nat :=
  List.filter (fun i => negb (bool_decide (i ∈ can_reach P [] product)))
              (seq 0 (length P)).

(** Modelled from the spec: the milestones whose mean first-passage time is
    "undefined/infinite", so not a number: those from which the process can
    get trapped before it passes through the product set. *)
Definition unreachable (P : matrix) (product : list nat) : list nat :=
  can_reach P product (trapped P product).

(** Modelled from the spec: [local_mfpts(P, tau, product_set) -> vector] of
    the MFPT engine, which is not under [src/].  The mean first-passage time
    of a milestone is a number, [Some m_i], or the "unreachable" marker,
    [None]; a marker on one milestone leaves the numbers of the others in
    place.  The recursion is solved over the milestones that keep a number,
    the others being taken out of it like the product set (no equation of a
    milestone that keeps a number mentions them).  Malformed data
    ([DataError]) yields no vector at all. *)
Definition local_mfpts (P tau : matrix) (product : list nat)
  : option (list (option Qc)) :=
  if valid_matrices P tau product then
    let lost := unreachable P product in
    m ← mfpt_solve P tau (product ++ lost);
    Some (imap (fun i x => if bool_decide (i ∈ lost) then None else Some x) m)
  else None.

Definition weighted_sum (w m : vector) (s : list nat) : Qc :=
  foldr (fun i acc => nth i w 0 * nth i m 0 + acc) 0 s.

Definition weight (w : vector) (s : list nat) : Qc :=
  foldr (fun i acc => nth i w 0 + acc) 0 s.

(** The local MFPT of milestone [i] is a number. *)
Definition is_finite (m : list (option Qc)) (i : nat) : bool :=
  match m !! i with Some (Some _) => true | _ => false end.

(** The numbers of a vector of local MFPTs. *)
Definition values (m : list (option Qc)) : vector := map (default 0) m.

(** Modelled from the spec: [global_mfpt(m, reactant_set, pi) -> scalar] of
    the MFPT engine, which is not under [src/]: the weighted average
    [sum_{i in reactant} pi_i m_i / sum_{i in reactant} pi_i], taken over
    the reactant milestones whose local MFPT is a number (an unreachable
    reactant milestone does not abort the analysis, "since other reactant
    milestones may still be valid").  A reactant that is not a milestone, or
    reactant milestones of total weight zero, leave the average undefined:
    [None]. *)
Definition global_mfpt (m : list (option Qc)) (reactant : list nat)
    (pi : vector) : option Qc :=
  if forallb (fun i => bool_decide (i < length m)%nat) reactant
     && bool_decide (length pi = length m)
  then
    let finite := List.filter (is_finite m) reactant in
    if decide (weight pi finite = 0) then None
    else Some (weighted_sum pi (values m) finite / weight pi finite)
  else None.

(** Modelled from the spec: the GlobalMFPT of the data model, "the
    reactant-weighted average of LocalMFPT values": [global_mfpt] applied to
    the [local_mfpts] of the kernel.  The weights [pi] are an argument, as
    they are of [global_mfpt]. *)
Definition GlobalMFPT (K : transition_kernel) (pi : vector) : option Qc :=
  m ← local_mfpts (tk_P K) (tk_tau K) (tk_product K);
  global_mfpt m (tk_reactant K) pi.

(** Scaling every lag time by [k]. *)
Definition scale_lag_times (k : Qc) (K : transition_kernel)
  : transition_kernel :=
  {| tk_P := tk_P K;
     tk_tau := map (map (Qcmult k)) (tk_tau K);
     tk_reactant := tk_reactant K;
     tk_product := tk_product K |}.

(** *** Kernels of the scenarios *)

(** The chain 0 -> 1 -> 2 with milestone 2 absorbing. *)
Definition chain_P : matrix := [[0; 1; 0]; [0; 0; 1]; [0; 0; 1]].
Definition chain_tau : matrix := [[0; of_Z 2; 0]; [0; 0; of_Z 3]; [0; 0; 0]].
Definition chain : transition_kernel :=
  {| tk_P := chain_P; tk_tau := chain_tau;
     tk_reactant := [0%nat]; tk_product := [2%nat] |}.

(** The same chain with the row of the product milestone left empty. *)
Definition open_chain : transition_kernel :=
  {| tk_P := [[0; 1; 0]; [0; 0; 1]; [0; 0; 0]]; tk_tau := chain_tau;
     tk_reactant := [0%nat]; tk_product := [2%nat] |}.

(** Two milestones feeding each other, reactant 0 and product 1. *)
Definition cycle_P : matrix := [[0; 1]; [1; 0]].
Definition cycle (t01 t10 : Qc) : transition_kernel :=
  {| tk_P := cycle_P; tk_tau := [[0; t01]; [t10; 0]];
     tk_reactant := [0%nat]; tk_product := [1%nat] |}.

(** The same cycle with milestone 1 both reactant and product. *)
Definition cycle_from_product : transition_kernel :=
  {| tk_P := cycle_P; tk_tau := [[0; of_Z 2]; [of_Z 4; 0]];
     tk_reactant := [1%nat]; tk_product := [1%nat] |}.

(** The symmetric kernel on two milestones, without absorbing state. *)
Definition half : Qc := Q2Qc (1 # 2).
Definition symmetric : transition_kernel :=
  {| tk_P := [[half; half]; [half; half]]; tk_tau := [[1; 1]; [1; 1]];
     tk_reactant := [0%nat]; tk_product := [1%nat] |}.

(** Two milestones that never leave themselves: two recurrent classes. *)
Definition split_kernel : transition_kernel :=
  {| tk_P := [[1; 0]; [0; 1]]; tk_tau := [[1; 0]; [0; 1]];
     tk_reactant := [0%nat]; tk_product := [1%nat] |}.

(** From the reactant 0 the process moves to the product 2 or to milestone
    1, which it never leaves, each with probability one half. *)
Definition leak : transition_kernel :=
  {| tk_P := [[0; half; half]; [0; 1; 0]; [0; 0; 1]];
     tk_tau := [[0; 1; 1]; [0; 1; 0]; [0; 0; 1]];
     tk_reactant := [0%nat]; tk_product := [2%nat] |}.

(** Two reactants: milestone 0 moves to the product 2, milestone 1 never
    leaves itself. *)
Definition two_reactants : transition_kernel :=
  {| tk_P := [[0; 0; 1]; [0; 1; 0]; [0; 0; 1]];
     tk_tau := [[0; 0; of_Z 4]; [0; 1; 0]; [0; 0; 1]];
     tk_reactant := [0%nat; 1%nat]; tk_product := [2%nat] |}.

Close Scope Qc_scope.

(* ================================================================== *)
(** * Theorems on the orchestration layer *)

Section OrchestrationFacts.

Context {Kernel Matrices Distributions Aux Content : Type}.
Variable api : miles_api Kernel Matrices Distributions Aux Content.
Variables stationary_distributions transition_matrix lag_time_matrix
          stationary_flux local_mfpts stationary_probability : string.

Local Abbreviation the_analysis :=
  (analyze api stationary_distributions transition_matrix lag_time_matrix
           stationary_flux local_mfpts stationary_probability).

Local Abbreviation the_matrices_save :=
  (MatricesSave transition_matrix lag_time_matrix stationary_flux local_mfpts
                stationary_probability).

Local Abbreviation the_save_distributions d :=
  (SaveDistributions d stationary_distributions).

(** The five shapes of an execution: one per call that may raise, and the
    normal return. *)
Lemma run_analyze (w : world Kernel Content) :
  run the_analysis w =
  match TransitionKernel_save_distributions api w with
  | (Raise e, w1) => (Raise e, w1, [KernelSaveDistributions])
  | (Return _, w1) =>
    match TransitionKernel_compute_distributions api w1 with
    | (Raise e, w2) =>
        (Raise e, w2, [KernelSaveDistributions; KernelComputeDistributions])
    | (Return (d, q), w2) =>
      match save_distributions api d stationary_distributions w2 with
      | (Raise e, w3) =>
          (Raise e, w3,
           [KernelSaveDistributions; KernelComputeDistributions;
            SaveDistributions d stationary_distributions])
      | (Return _, w3) =>
        match Matrices_save api transition_matrix lag_time_matrix
                stationary_flux local_mfpts stationary_probability w3 with
        | (Raise e, w4) =>
            (Raise e, w4,
             [KernelSaveDistributions; KernelComputeDistributions;
              SaveDistributions d stationary_distributions;
              the_matrices_save])
        | (Return _, w4) =>
            (Return (mfpt api (matrices api (kernel w4))), w4,
             [KernelSaveDistributions; KernelComputeDistributions;
              SaveDistributions d stationary_distributions;
              the_matrices_save])
        end
      end
    end
  end.
Proof.
  unfold run, analyze, mbind, M_bind, invoke, read_kernel,
    mret, M_ret.
  destruct (TransitionKernel_save_distributions api w) as [[[]|e] w1];
    simpl; [|reflexivity].
  destruct (TransitionKernel_compute_distributions api w1) as [[[d q]|e] w2];
    simpl; [|reflexivity].
  destruct (save_distributions api d stationary_distributions w2)
    as [[[]|e] w3]; simpl; [|reflexivity].
  destruct (Matrices_save api transition_matrix lag_time_matrix
              stationary_flux local_mfpts stationary_probability w3)
    as [[[]|e] w4]; reflexivity.
Qed.

(** Case analysis on an execution of [analyze]. *)
Ltac analyze_cases w :=
  rewrite (run_analyze w);
  destruct (TransitionKernel_save_distributions api w) as [[[]|?e] ?w1] eqn:?Hksd;
  [ destruct (TransitionKernel_compute_distributions api w1)
      as [[[?d ?q]|?e] ?w2] eqn:?Hcd;
    [ destruct (save_distributions api d stationary_distributions w2)
        as [[[]|?e] ?w3] eqn:?Hsd;
      [ destruct (Matrices_save api transition_matrix lag_time_matrix
                    stationary_flux local_mfpts stationary_probability w3)
          as [[[]|?e] ?w4] eqn:?Hms | ] | ] | ].

(** C1: whenever [analyze] returns, the value returned is the attribute
    [mfpt] of the matrices bundle of the kernel, a float, read after the last
    call; and it does return when its four calls return. *)
Theorem analyze_returns_matrices_mfpt (w : world Kernel Content) :
  (forall v w' l,
      run the_analysis w = (Return v, w', l) ->
      v = mfpt api (matrices api (kernel w'))) /\
  (forall w1 d q w2 w3 w4,
      TransitionKernel_save_distributions api w = (Return tt, w1) ->
      TransitionKernel_compute_distributions api w1 = (Return (d, q), w2) ->
      save_distributions api d stationary_distributions w2 = (Return tt, w3) ->
      Matrices_save api transition_matrix lag_time_matrix stationary_flux
        local_mfpts stationary_probability w3 = (Return tt, w4) ->
      run the_analysis w =
        (Return (mfpt api (matrices api (kernel w4))), w4,
         [KernelSaveDistributions; KernelComputeDistributions;
          the_save_distributions d; the_matrices_save])).
Proof.
  split.
  - intros v w' l. analyze_cases w; intros H; inversion H; subst; reflexivity.
  - intros w1 d q w2 w3 w4 H1 H2 H3 H4.
    rewrite (run_analyze w), H1, H2, H3, H4. reflexivity.
Qed.

(** C2, amended: the calls of an execution are, in this order, the kernel's
    own [save_distributions()], the solve, [save_distributions] to the
    caller's path and [matrices.save]; an execution that returns has made
    all four, so the solve comes before the two writes to the caller's
    destinations and these come before the return.  An execution that
    raises has made an initial part of them. *)
Theorem analyze_call_order (w : world Kernel Content) :
  match run the_analysis w with
  | (Return _, _, l) =>
      (exists d,
          l = [KernelSaveDistributions; KernelComputeDistributions;
               the_save_distributions d; the_matrices_save]) /\
      solve_before is_path_write l
  | (Raise _, _, l) =>
      l = [KernelSaveDistributions] \/
      l = [KernelSaveDistributions; KernelComputeDistributions] \/
      exists d,
        l = [KernelSaveDistributions; KernelComputeDistributions;
             the_save_distributions d] \/
        l = [KernelSaveDistributions; KernelComputeDistributions;
             the_save_distributions d; the_matrices_save]
  end.
Proof.
  analyze_cases w; eauto 6.
  split; [eauto|].
  intros [|[|[|[|i]]]] [|[|[|[|j]]]] c Hi Hw Hj;
    simpl in Hi, Hj; simplify_eq; simpl in *; try discriminate; lia.
Qed.

(** C3, amended: when the solve raises, [analyze] raises the same exception
    right away; the only calls made are the kernel's [save_distributions()]
    and the solve, so neither [save_distributions] nor [matrices.save] has
    written to a destination of the caller, and the world is the one the
    failed solve left. *)
Theorem analyze_solve_failure (w w1 w2 : world Kernel Content) (e : exn) :
  TransitionKernel_save_distributions api w = (Return tt, w1) ->
  TransitionKernel_compute_distributions api w1 = (Raise e, w2) ->
  run the_analysis w =
    (Raise e, w2, [KernelSaveDistributions; KernelComputeDistributions]).
Proof.
  intros H1 H2. rewrite (run_analyze w), H1, H2. reflexivity.
Qed.

(** C5: in every execution [matrices.save] is called with the five paths in
    the order transition matrix, lag-time matrix, stationary flux, local
    MFPTs, stationary probability; it is called exactly once, unless an
    earlier call raised and ended the execution, and always exactly once in
    an execution that returns. *)
Theorem analyze_matrices_save_once (w : world Kernel Content) :
  let '(r, _, l) := run the_analysis w in
  (List.filter is_matrices_save l = [the_matrices_save] \/
   (List.filter is_matrices_save l = [] /\ exists e, r = Raise e)) /\
  (forall v, r = Return v ->
     List.filter is_matrices_save l = [the_matrices_save] /\
     l !! 3%nat = Some the_matrices_save).
Proof.
  analyze_cases w; simpl; split; eauto; intros; discriminate.
Qed.

(** C6: once the solve has returned its pair, the first component, the
    distributions object, is handed to [save_distributions] together with the
    caller's path [stationary_distributions]; this is the third call, right
    after the solve, and the only call of [save_distributions]. *)
Theorem analyze_saves_computed_distributions
    (w w1 w2 : world Kernel Content) (d : Distributions) (q : Aux) :
  TransitionKernel_save_distributions api w = (Return tt, w1) ->
  TransitionKernel_compute_distributions api w1 = (Return (d, q), w2) ->
  let l := (run the_analysis w).2 in
  List.filter is_save_distributions l = [the_save_distributions d] /\
  [KernelSaveDistributions; KernelComputeDistributions;
   the_save_distributions d] `prefix_of` l.
Proof.
  intros H1 H2. rewrite (run_analyze w), H1, H2.
  destruct (save_distributions api d stationary_distributions w2)
    as [[[]|e3] w3]; [|simpl; split; [reflexivity|exists []; reflexivity]].
  destruct (Matrices_save api transition_matrix lag_time_matrix
              stationary_flux local_mfpts stationary_probability w3)
    as [[[]|e4] w4]; simpl; (split; [reflexivity|]);
    exists [the_matrices_save]; reflexivity.
Qed.


End OrchestrationFacts.


(** *** The example implementation at work *)

Local Abbreviation example_analysis :=
  (analyze example_api "distributions.dat" "transition.mtx" "lag_time.mtx"
           "flux.dat" "local_mfpts.dat" "probability.dat").

Local Abbreviation example_log :=
  [KernelSaveDistributions; KernelComputeDistributions;
   SaveDistributions [0.5; 0.5]%float "distributions.dat";
   MatricesSave "transition.mtx" "lag_time.mtx" "flux.dat" "local_mfpts.dat"
                "probability.dat"].

Lemma write_file_kernel path table (w : example_world) :
  kernel (write_file path table w).2 = kernel w.
Proof. unfold write_file. destruct (decide (path = "")); reflexivity. Qed.

Lemma and_then_kernel (a b : example_operation unit) :
  (forall w, kernel (a w).2 = kernel w) ->
  (forall w, kernel (b w).2 = kernel w) ->
  forall w, kernel (and_then a b w).2 = kernel w.
Proof.
  intros Ha Hb w. unfold and_then. specialize (Ha w).
  destruct (a w) as [[[]|e] w']; simpl in *; [|exact Ha].
  rewrite Hb. exact Ha.
Qed.

Lemma example_api_immutable_kernel : immutable_kernel example_api.
Proof.
  repeat split; simpl.
  - intros w. apply write_file_kernel.
  - intros w. unfold ex_compute_distributions.
    destruct (ex_reducible (kernel w)); reflexivity.
  - intros d p w. apply write_file_kernel.
  - intros tp lp fp mp pp w. unfold ex_matrices_save.
    repeat apply and_then_kernel; intros; apply write_file_kernel.
Qed.

Lemma example_run_solvable :
  exists w', run example_analysis solvable_world
             = (Return 2%float, w', example_log).
Proof. eexists. reflexivity. Qed.

(** The example analysis returns 2, the [mfpt] attribute of the bundle. *)
Lemma analyze_returns_matrices_mfpt_witness :
  exists w', run example_analysis solvable_world
             = (Return 2%float, w', example_log).
Proof.
  eexists. etransitivity.
  - eapply (proj2 (analyze_returns_matrices_mfpt example_api
                    "distributions.dat" "transition.mtx" "lag_time.mtx"
                    "flux.dat" "local_mfpts.dat" "probability.dat"
                    solvable_world));
      reflexivity.
  - reflexivity.
Defined.

(** C2, as stated, fails: the first call of every execution is the kernel's
    [save_distributions()], a persistence operation, and it comes before the
    solve; in the example it has written the database file by the time the
    solve starts. *)
Lemma kernel_save_precedes_solve :
  (exists v w', run example_analysis solvable_world
                = (Return v, w', example_log)) /\
  ~ solve_before is_persistence_write example_log /\
  files (TransitionKernel_save_distributions example_api solvable_world).2
    !! "simulation.db" = Some [[0; 1]; [1; 0]]%float.
Proof.
  split; [|split].
  - destruct example_run_solvable as [w' H]. eauto.
  - intros H. specialize (H 0%nat 1%nat KernelSaveDistributions).
    simpl in H. specialize (H eq_refl eq_refl eq_refl). lia.
  - reflexivity.
Qed.

(** C3, as stated, fails: the solve of the reducible kernel raises after the
    kernel's [save_distributions()] has written the database file, so the
    files are no longer what they were. *)
Lemma solve_failure_after_kernel_save :
  exists w',
    run example_analysis reducible_world
      = (Raise SolverError, w',
         [KernelSaveDistributions; KernelComputeDistributions]) /\
    files reducible_world !! "simulation.db" = None /\
    files w' !! "simulation.db" = Some [[0; 1]; [1; 0]]%float /\
    files w' <> files reducible_world.
Proof.
  eexists. split; [reflexivity|]. split; [reflexivity|].
  split; [reflexivity|].
  intros H. apply (f_equal (fun m => m !! "simulation.db")) in H.
  discriminate H.
Qed.

Lemma analyze_solve_failure_witness :
  exists w',
    run example_analysis reducible_world
      = (Raise SolverError, w',
         [KernelSaveDistributions; KernelComputeDistributions]).
Proof.
  eexists.
  eapply (analyze_solve_failure example_api "distributions.dat"
           "transition.mtx" "lag_time.mtx" "flux.dat" "local_mfpts.dat"
           "probability.dat" reducible_world); reflexivity.
Defined.

(** In the example [matrices.save] is called once, and each of the five
    tensors is then in the file named for it. *)
Lemma analyze_matrices_save_once_witness :
  List.filter is_matrices_save (run example_analysis solvable_world).2
  = [MatricesSave "transition.mtx" "lag_time.mtx" "flux.dat"
                  "local_mfpts.dat" "probability.dat"] /\
  let disk := files (run example_analysis solvable_world).1.2 in
  disk !! "transition.mtx" = Some (ex_transition cycle_matrices) /\
  disk !! "lag_time.mtx" = Some (ex_lag_time cycle_matrices) /\
  disk !! "flux.dat" = Some [ex_flux cycle_matrices] /\
  disk !! "local_mfpts.dat" = Some [ex_local_mfpts cycle_matrices] /\
  disk !! "probability.dat" = Some [ex_probability cycle_matrices].
Proof.
  split.
  - pose proof (analyze_matrices_save_once example_api "distributions.dat"
                  "transition.mtx" "lag_time.mtx" "flux.dat"
                  "local_mfpts.dat" "probability.dat" solvable_world) as H.
    destruct example_run_solvable as [w' Hrun].
    rewrite Hrun in H |- *. exact (proj1 (proj2 H 2%float eq_refl)).
  - repeat split; vm_compute; reflexivity.
Defined.

Lemma analyze_saves_computed_distributions_witness :
  List.filter is_save_distributions (run example_analysis solvable_world).2
  = [SaveDistributions [0.5; 0.5]%float "distributions.dat"].
Proof.
  refine (proj1 (analyze_saves_computed_distributions example_api
                   "distributions.dat" "transition.mtx" "lag_time.mtx"
                   "flux.dat" "local_mfpts.dat" "probability.dat"
                   solvable_world _ _ [0.5; 0.5]%float [2; 4]%float _ _));
    reflexivity.
Defined.



(** Two floats that a third one separates differ. *)
Lemma separated_floats (x y p : float) :
  PrimFloat.ltb x p = true -> PrimFloat.ltb y p = false -> x <> y.
Proof. intros Hx Hy ->. congruence. Qed.



(* ================================================================== *)
(** * Theorems on the numerical core *)

Open Scope Qc_scope.

(** ** Arithmetic of [Qc] through [Q] *)

Lemma Qc_eq_Qeq (x y : Qc) : x = y <-> (this x == this y)%Q.
Proof. split; [intros ->; reflexivity|apply Qc_is_canon]. Qed.

Ltac qc_to_q :=
  repeat match goal with
         | H : @eq Qc _ _ |- _ => apply Qc_eq_Qeq in H
         | H : ~ @eq Qc _ _ |- _ => rewrite Qc_eq_Qeq in H
         | |- @eq Qc _ _ => apply Qc_eq_Qeq
         | |- ~ @eq Qc _ _ => rewrite Qc_eq_Qeq
         end;
  unfold Qcle, Qclt, Qcminus, Qcopp, Qcplus, Qcmult, Q2Qc in *;
  cbn [this] in *;
  rewrite ?Qred_correct in *.

Ltac qc_lra := qc_to_q; lra.
Ltac qc_nra := qc_to_q; nra.

(** ** Vectors *)

Lemma dot_nil_r (u : vector) : dot u [] = 0.
Proof. destruct u; reflexivity. Qed.

Lemma dot_eliminate (f : Qc) (es ps xs : vector) :
  length es = length ps ->
  dot (zip_with (fun x y => x - f * y) es ps) xs = dot es xs - f * dot ps xs.
Proof.
  revert ps xs. induction es as [|b es IH]; intros [|a ps] xs Hlen;
    simpl in Hlen; try discriminate.
  - simpl. ring.
  - destruct xs as [|x xs]; simpl; [ring|].
    rewrite IH by congruence. ring.
Qed.

Lemma dot_scale_r (k : Qc) (u v : vector) :
  dot u (map (Qcmult k) v) = k * dot u v.
Proof.
  revert v. induction u as [|a u IH]; intros [|b v]; simpl; try ring.
  rewrite IH. ring.
Qed.

Lemma dot_scale_l (k : Qc) (u v : vector) :
  dot (map (Qcmult k) u) v = k * dot u v.
Proof.
  revert v. induction u as [|a u IH]; intros [|b v]; simpl; try ring.
  rewrite IH. ring.
Qed.

(** ** Gaussian elimination *)

Lemma find_pivot_spec (eqs : list equation) (p : equation)
    (others : list equation) :
  find_pivot eqs = Some (p, others) ->
  (exists a ps, p.1 = a :: ps /\ a <> 0) /\ eqs ≡ₚ p :: others.
Proof.
  revert p others. induction eqs as [|e rest IH]; intros p others H;
    simpl in H; [discriminate|].
  destruct (e.1) as [|a es] eqn:He; [discriminate|].
  destruct (decide (a = 0)) as [Ha|Ha].
  - destruct (find_pivot rest) as [[p' others']|] eqn:Hrest;
      simpl in H; [|discriminate].
    inversion H; subst. destruct (IH _ _ eq_refl) as [Hp Hperm].
    split; [exact Hp|]. rewrite Hperm. apply Permutation_swap.
  - inversion H; subst. split; [eauto|reflexivity].
Qed.

Lemma eliminate_length (n : nat) (p e : equation) :
  length p.1 = S n -> length e.1 = S n -> length (eliminate p e).1 = n.
Proof.
  unfold eliminate. destruct (p.1) as [|a ps]; [discriminate|].
  destruct (e.1) as [|b es]; [discriminate|]. simpl.
  intros Hp He. rewrite length_zip_with. lia.
Qed.

Lemma eliminate_well_formed (n : nat) (p : equation)
    (others : list equation) :
  well_formed (S n) (p :: others) ->
  well_formed n (map (eliminate p) others).
Proof.
  unfold well_formed. intros H. inversion H as [|? ? Hp Ho]; subst.
  apply Forall_map. revert Ho. apply List.Forall_impl.
  intros e He. apply eliminate_length; assumption.
Qed.

(** Substituting back: the eliminated equation at the tail gives the
    equation itself at the full point. *)
Lemma eliminate_holds (a b x0 rp re : Qc) (ps es xs : vector) :
  a <> 0 -> length es = length ps ->
  a * x0 + dot ps xs = rp ->
  (holds xs (eliminate (a :: ps, rp) (b :: es, re)) <->
   holds (x0 :: xs) (b :: es, re)).
Proof.
  intros Ha Hlen Hp. unfold holds, eliminate. simpl.
  rewrite dot_eliminate by exact Hlen. subst rp.
  split; intros H.
  - assert (dot es xs = re - b / a * (a * x0 + dot ps xs)
                        + b / a * dot ps xs) as -> by (rewrite <- H; ring).
    field. exact Ha.
  - rewrite <- H. field. exact Ha.
Qed.

(** Soundness: what [gauss] returns solves every equation. *)
Lemma gauss_sound (n : nat) (eqs : list equation) (xs : vector) :
  well_formed n eqs -> gauss n eqs = Some xs ->
  length xs = n /\ Forall (holds xs) eqs.
Proof.
  revert eqs xs. induction n as [|n IH]; intros eqs xs Hwf H; simpl in H.
  - destruct eqs; [|discriminate]. inversion H; subst. split; constructor.
  - destruct (find_pivot eqs) as [[p others]|] eqn:Hpiv; simpl in H;
      [|discriminate].
    destruct (find_pivot_spec _ _ _ Hpiv) as [(a & ps & Hp & Ha) Hperm].
    assert (Hwf' : well_formed (S n) (p :: others)).
    { unfold well_formed. rewrite <- Hperm. exact Hwf. }
    destruct (gauss n (map (eliminate p) others)) as [ys|] eqn:Hrec;
      simpl in H; [|discriminate].
    rewrite Hp in H. inversion H; subst xs. clear H.
    destruct (IH _ _ (eliminate_well_formed _ _ _ Hwf') Hrec) as [Hlen Hys].
    split; [simpl; congruence|].
    rewrite Hperm. destruct p as [pc rp]. simpl in Hp. subst pc.
    assert (Hx0 : a * ((rp - dot ps ys) / a) + dot ps ys = rp)
      by (field; exact Ha).
    constructor; [exact Hx0|].
    rewrite Forall_map in Hys.
    inversion Hwf' as [|? ? Hlp Hlo]; subst. simpl in Hlp.
    rewrite Forall_forall in Hys, Hlo |- *. intros [ec re] He.
    specialize (Hys _ He). specialize (Hlo _ He). simpl in Hlo, Hys.
    destruct ec as [|b es]; [discriminate|].
    apply (eliminate_holds a b _ rp re ps es ys Ha); [simpl in *; lia| |];
      assumption.
Qed.

(** Uniqueness: a point that solves every equation is the one [gauss]
    returns. *)
Lemma gauss_unique (n : nat) (eqs : list equation) (xs ys : vector) :
  well_formed n eqs -> gauss n eqs = Some xs ->
  length ys = n -> Forall (holds ys) eqs -> ys = xs.
Proof.
  revert eqs xs ys. induction n as [|n IH]; intros eqs xs ys Hwf H Hlen Hys;
    simpl in H.
  - destruct eqs; [|discriminate]. inversion H; subst.
    destruct ys; [reflexivity|discriminate].
  - destruct (find_pivot eqs) as [[p others]|] eqn:Hpiv; simpl in H;
      [|discriminate].
    destruct (find_pivot_spec _ _ _ Hpiv) as [(a & ps & Hp & Ha) Hperm].
    assert (Hwf' : well_formed (S n) (p :: others)).
    { unfold well_formed. rewrite <- Hperm. exact Hwf. }
    destruct (gauss n (map (eliminate p) others)) as [zs|] eqn:Hrec;
      simpl in H; [|discriminate].
    rewrite Hp in H. inversion H; subst xs. clear H.
    destruct ys as [|y0 ys]; [discriminate|]. simpl in Hlen.
    rewrite Hperm in Hys. inversion Hys as [|? ? Hpy Hoy]; subst.
    destruct p as [pc rp]. simpl in Hp. subst pc.
    unfold holds in Hpy. simpl in Hpy.
    pose proof (List.Forall_inv Hwf') as Hlp.
    pose proof (List.Forall_inv_tail Hwf') as Hlo. simpl in Hlp.
    assert (ys = zs) as ->.
    { apply (IH (map (eliminate (a :: ps, rp)) others));
        [apply eliminate_well_formed; exact Hwf'|exact Hrec|lia|].
      apply Forall_map. rewrite Forall_forall in Hoy, Hlo |- *.
      intros [ec re] He. specialize (Hoy _ He). specialize (Hlo _ He).
      simpl in Hlo. destruct ec as [|b es]; [discriminate|].
      apply (eliminate_holds a b y0 rp re ps es ys Ha);
        [simpl in *; lia|exact Hpy|exact Hoy]. }
    simpl. f_equal. rewrite <- Hpy. field. exact Ha.
Qed.

Lemma find_pivot_scale (k : Qc) (eqs : list equation) :
  find_pivot (map (scale_rhs k) eqs) =
  (fun po => (scale_rhs k po.1, map (scale_rhs k) po.2)) <$> find_pivot eqs.
Proof.
  induction eqs as [|e rest IH]; [reflexivity|]. simpl.
  destruct (e.1) as [|a es]; [reflexivity|].
  destruct (decide (a = 0)); [|reflexivity].
  rewrite IH. destruct (find_pivot rest) as [[p others]|]; reflexivity.
Qed.

Lemma eliminate_scale (k : Qc) (p e : equation) :
  eliminate (scale_rhs k p) (scale_rhs k e) = scale_rhs k (eliminate p e).
Proof.
  destruct p as [[|a ps] rp], e as [[|b es] re]; try reflexivity.
  unfold eliminate, scale_rhs. simpl. f_equal. ring.
Qed.

(** Linearity: scaling the right-hand sides scales the solution, and a
    singular system stays singular. *)
Lemma gauss_scale (k : Qc) (n : nat) (eqs : list equation) :
  gauss n (map (scale_rhs k) eqs) = map (Qcmult k) <$> gauss n eqs.
Proof.
  revert eqs. induction n as [|n IH]; intros eqs; simpl.
  - destruct eqs; reflexivity.
  - rewrite find_pivot_scale.
    destruct (find_pivot eqs) as [[p others]|]; [|reflexivity]. simpl.
    rewrite map_map.
    rewrite (map_ext (fun e => eliminate (scale_rhs k p) (scale_rhs k e))
                     (fun e => scale_rhs k (eliminate p e)))
      by (intros; apply eliminate_scale).
    rewrite <- (map_map (eliminate p) (scale_rhs k)), IH.
    destruct (gauss n (map (eliminate p) others)) as [xs|]; [|reflexivity].
    simpl. destruct (p.1) as [|a ps]; [reflexivity|]. simpl.
    rewrite dot_scale_r. do 2 f_equal.
    unfold Qcdiv. ring.
Qed.

(** ** The MFPT system *)

Lemma is_square_spec (N : nat) (A : matrix) :
  is_square N A = true ->
  length A = N /\ forall i row, A !! i = Some row -> length row = N.
Proof.
  unfold is_square. intros H. apply andb_prop in H as [H1 H2].
  apply bool_decide_eq_true in H1. split; [exact H1|].
  intros i row Hi. rewrite forallb_forall in H2.
  specialize (H2 row). eapply bool_decide_eq_true_1, H2.
  apply list_elem_of_In, list_elem_of_lookup. eauto.
Qed.

Lemma dot_zip_minus (u v xs : vector) :
  length u = length v ->
  dot (zip_with Qcminus u v) xs = dot u xs - dot v xs.
Proof.
  revert v xs. induction u as [|a u IH]; intros [|b v] xs Hlen;
    simpl in Hlen; try discriminate.
  - simpl. ring.
  - destruct xs as [|x xs]; simpl; [ring|].
    rewrite IH by congruence. ring.
Qed.

Lemma dot_unit_seq (i s n : nat) (m : vector) :
  length m = n ->
  dot (map (fun j => if decide (i = j) then 1 else 0) (seq s n)) m =
  if bool_decide (s <= i < s + n)%nat then nth (i - s) m 0 else 0.
Proof.
  revert s m. induction n as [|n IH]; intros s [|x m] Hlen;
    simpl in Hlen; try discriminate.
  - rewrite bool_decide_eq_false_2 by lia. reflexivity.
  - simpl. rewrite IH by congruence.
    destruct (decide (i = s)) as [->|Hne].
    + rewrite bool_decide_eq_false_2 by lia.
      rewrite bool_decide_eq_true_2 by lia.
      rewrite Nat.sub_diag. simpl. ring.
    + destruct (decide (S s <= i < S s + n)%nat) as [Hin|Hout].
      * rewrite !bool_decide_eq_true_2 by lia.
        replace (i - s)%nat with (S (i - S s)) by lia. simpl. ring.
      * rewrite !bool_decide_eq_false_2 by lia. ring.
Qed.

Lemma dot_unit_row (N i : nat) (m : vector) :
  length m = N -> (i < N)%nat -> dot (unit_row N i) m = nth i m 0.
Proof.
  intros Hlen Hi. unfold unit_row. rewrite dot_unit_seq by exact Hlen.
  rewrite bool_decide_eq_true_2 by lia. rewrite Nat.sub_0_r. reflexivity.
Qed.

Lemma length_unit_row (N i : nat) : length (unit_row N i) = N.
Proof. unfold unit_row. rewrite length_map, length_seq. reflexivity. Qed.

Lemma mfpt_system_lookup (P tau : matrix) (product : list nat) (i : nat) :
  mfpt_system P tau product !! i =
  mfpt_equation (length P) product i <$> zip P tau !! i.
Proof. unfold mfpt_system. apply list_lookup_imap. Qed.

Lemma mfpt_system_well_formed (P tau : matrix) (product : list nat) :
  is_square (length P) P = true ->
  well_formed (length P) (mfpt_system P tau product).
Proof.
  intros HP. destruct (is_square_spec _ _ HP) as [_ Hrows].
  apply Forall_lookup. intros i e He.
  rewrite mfpt_system_lookup in He.
  destruct (zip P tau !! i) as [[Pi ti]|] eqn:Hz; [|discriminate].
  simpl in He. inversion He; subst e. clear He.
  apply lookup_zip_with_Some in Hz as (Pi' & ti' & Heq & HPi & Hti).
  inversion Heq; subst Pi' ti'.
  unfold mfpt_equation. case_bool_decide; simpl.
  - apply length_unit_row.
  - rewrite length_zip_with, length_unit_row, (Hrows _ _ HPi). lia.
Qed.

(** What [mfpt_solve] returns satisfies the first-step recursion of the
    spec: zero on the product set, and
    [m_i = sum_j P_ij tau_ij + sum_j P_ij m_j] elsewhere. *)
Lemma mfpt_solve_recursion (P tau : matrix) (product : list nat)
    (m : vector) :
  mfpt_solve P tau product = Some m ->
  length m = length P /\
  (forall i, i ∈ product -> (i < length P)%nat -> nth i m 0 = 0) /\
  (forall i Pi ti,
      P !! i = Some Pi -> tau !! i = Some ti -> i ∉ product ->
      nth i m 0 = dot Pi ti + dot Pi m).
Proof.
  unfold mfpt_solve.
  destruct (is_square (length P) P) eqn:HP; [|discriminate].
  destruct (is_square (length P) tau) eqn:Ht; [|discriminate].
  simpl. intros H.
  destruct (gauss_sound _ _ _ (mfpt_system_well_formed P tau product HP) H)
    as [Hlen Hsol].
  destruct (is_square_spec _ _ HP) as [_ HProws].
  destruct (is_square_spec _ _ Ht) as [Htlen _].
  rewrite Forall_lookup in Hsol.
  split; [exact Hlen|]. split.
  - intros i Hi HiN.
    destruct (lookup_lt_is_Some_2 P i HiN) as [Pi HPi].
    destruct (lookup_lt_is_Some_2 tau i ltac:(lia)) as [ti Hti].
    specialize (Hsol i (mfpt_equation (length P) product i (Pi, ti))).
    rewrite mfpt_system_lookup in Hsol.
    erewrite (proj2 (lookup_zip_with_Some pair P tau i (Pi, ti))) in Hsol
      by eauto.
    specialize (Hsol eq_refl). unfold holds, mfpt_equation in Hsol.
    rewrite bool_decide_eq_true_2 in Hsol by exact Hi. simpl in Hsol.
    rewrite dot_unit_row in Hsol by assumption. exact Hsol.
  - intros i Pi ti HPi Hti Hi.
    pose proof (lookup_lt_Some _ _ _ HPi) as HiN.
    specialize (Hsol i (mfpt_equation (length P) product i (Pi, ti))).
    rewrite mfpt_system_lookup in Hsol.
    erewrite (proj2 (lookup_zip_with_Some pair P tau i (Pi, ti))) in Hsol
      by eauto.
    specialize (Hsol eq_refl). unfold holds, mfpt_equation in Hsol.
    rewrite bool_decide_eq_false_2 in Hsol by exact Hi. simpl in Hsol.
    rewrite dot_zip_minus in Hsol
      by (rewrite length_unit_row, (HProws _ _ HPi); reflexivity).
    rewrite dot_unit_row in Hsol by assumption.
    rewrite <- Hsol. ring.
Qed.

Lemma mfpt_solve_square (P tau : matrix) (product : list nat) (m : vector) :
  mfpt_solve P tau product = Some m ->
  is_square (length P) P = true /\ is_square (length P) tau = true.
Proof.
  unfold mfpt_solve.
  destruct (is_square (length P) P); [|discriminate].
  destruct (is_square (length P) tau); [|discriminate]. auto.
Qed.

(** ** Signs *)

Lemma nth_nonneg (v : vector) (i : nat) :
  Forall (Qcle 0) v -> 0 <= nth i v 0.
Proof.
  revert i. induction v as [|x v IH]; intros [|i] H; simpl;
    try (apply Qcle_refl).
  - exact (List.Forall_inv H).
  - apply IH. exact (List.Forall_inv_tail H).
Qed.

(** A vector that is not empty has a least entry. *)
Lemma least_entry (m : vector) :
  m <> [] -> exists i mu, m !! i = Some mu /\ Forall (Qcle mu) m.
Proof.
  induction m as [|x m IH]; [congruence|]. intros _.
  destruct m as [|y m].
  - exists 0%nat, x. split; [reflexivity|].
    constructor; [apply Qcle_refl|constructor].
  - destruct IH as (i & mu & Hi & Hmu); [discriminate|].
    destruct (decide (x <= mu)) as [Hx|Hx].
    + exists 0%nat, x. split; [reflexivity|].
      constructor; [apply Qcle_refl|].
      revert Hmu. apply List.Forall_impl. intros z Hz. qc_lra.
    + exists (S i), mu. split; [exact Hi|].
      constructor; [qc_lra|exact Hmu].
Qed.

Lemma Qcmult_le_bound (a mu x : Qc) : 0 <= a -> mu <= x -> mu * a <= a * x.
Proof. intros Ha Hx. qc_nra. Qed.

Lemma total_cons (a : Qc) (u : vector) : total (a :: u) = a + total u.
Proof. reflexivity. Qed.

(** A convex combination is at least the least entry. *)
Lemma dot_lower_bound (mu : Qc) (u m : vector) :
  length u = length m -> Forall (Qcle 0) u -> Forall (Qcle mu) m ->
  mu * total u <= dot u m.
Proof.
  revert m. induction u as [|a u IH]; intros [|x m] Hlen Hu Hm;
    simpl in Hlen; try discriminate.
  - cbn [dot total foldr]. qc_lra.
  - pose proof (List.Forall_inv Hu) as Ha.
    pose proof (List.Forall_inv Hm) as Hx.
    specialize (IH m ltac:(congruence) (List.Forall_inv_tail Hu)
                  (List.Forall_inv_tail Hm)).
    pose proof (Qcmult_le_bound a mu x Ha Hx).
    rewrite total_cons. cbn [dot]. clear Hu Hm. qc_lra.
Qed.

(** The mean lifetime of a milestone is positive when every transition it
    can make takes a positive time. *)
Lemma dot_positive (u t : vector) :
  Forall (Qcle 0) u ->
  (forall j, 0 < nth j u 0 -> 0 < nth j t 0) ->
  0 <= dot u t /\ (0 < total u -> 0 < dot u t).
Proof.
  revert t. induction u as [|a u IH]; intros t Hu Hpos.
  - cbn [dot total foldr]. split; [apply Qcle_refl|]. intros H. exact H.
  - pose proof (List.Forall_inv Hu) as Ha.
    apply List.Forall_inv_tail in Hu. rewrite total_cons.
    destruct t as [|x t].
    + destruct (IH [] Hu) as [_ IH2].
      { intros j Hj. specialize (Hpos (S j) Hj). destruct j; exact Hpos. }
      rewrite dot_nil_r in IH2.
      specialize (Hpos 0%nat). cbn [nth dot] in *.
      split; [apply Qcle_refl|]. intros Htot.
      destruct (decide (0 < a)) as [Hpa|Hna].
      * exact (Hpos Hpa).
      * apply IH2. clear Hu IH2 Hpos. qc_lra.
    + destruct (IH t Hu) as [IH1 IH2].
      { intros j Hj. exact (Hpos (S j) Hj). }
      specialize (Hpos 0%nat). cbn [nth dot] in *. clear Hu IH.
      destruct (decide (0 < a)) as [Hpa|Hna].
      * specialize (Hpos Hpa).
        assert (0 < a * x) by (apply Qcmult_pos_pos; assumption).
        clear IH2. split; [qc_lra|]. intros _. qc_lra.
      * assert (a = 0) as -> by (clear IH2 Hpos; qc_lra).
        split; [clear IH2 Hpos; qc_lra|]. intros Htot.
        assert (0 < total u) as Hu' by (clear IH2 Hpos; qc_lra).
        specialize (IH2 Hu'). clear Hpos. qc_lra.
Qed.

Lemma entry_lookup (A : matrix) (i j : nat) (row : vector) :
  A !! i = Some row -> entry A i j = nth j row 0.
Proof. intros H. unfold entry. rewrite (nth_lookup_Some _ _ _ _ H). reflexivity. Qed.

(** The mean lifetime [sum_j P_ij tau_ij] of a milestone outside the product
    set is positive in a kernel with positive lag times. *)
Lemma mean_lifetime_positive (P tau : matrix) (product : list nat)
    (i : nat) (Pi ti : vector) :
  (forall i row, P !! i = Some row -> Forall (Qcle 0) row) ->
  (forall i row, P !! i = Some row -> i ∉ product -> total row = 1) ->
  (forall i j, i ∉ product -> 0 < entry P i j -> 0 < entry tau i j) ->
  P !! i = Some Pi -> tau !! i = Some ti -> i ∉ product ->
  0 < dot Pi ti.
Proof.
  intros Hnn Hsum Hlag HPi Hti Hi.
  apply (dot_positive Pi ti (Hnn _ _ HPi)).
  - intros j Hj. specialize (Hlag i j Hi).
    rewrite (entry_lookup _ _ _ _ HPi), (entry_lookup _ _ _ _ Hti) in Hlag.
    exact (Hlag Hj).
  - rewrite (Hsum _ _ HPi Hi). reflexivity.
Qed.

(** The solution of the recursion is never negative, and positive outside
    the absorbing set, with stochastic rows and positive lag times. *)
Lemma mfpt_solve_positive (P tau : matrix) (product : list nat)
    (m : vector) :
  mfpt_solve P tau product = Some m ->
  (forall i row, P !! i = Some row -> Forall (Qcle 0) row) ->
  (forall i row, P !! i = Some row -> i ∉ product -> total row = 1) ->
  (forall i j, i ∉ product -> 0 < entry P i j -> 0 < entry tau i j) ->
  Forall (Qcle 0) m /\
  forall i, (i < length P)%nat -> i ∉ product -> 0 < nth i m 0.
Proof.
  intros Hm Hnn Hsum Hlag.
  destruct (mfpt_solve_recursion _ _ _ _ Hm) as (Hlen & Hprod & Hrec).
  destruct (mfpt_solve_square _ _ _ _ Hm) as [HP Ht].
  destruct (is_square_spec _ _ HP) as [_ HProws].
  destruct (is_square_spec _ _ Ht) as [Htlen _].
  assert (Hrow : forall i, (i < length P)%nat -> i ∉ product ->
            exists Pi b, P !! i = Some Pi /\ length Pi = length m /\
                         0 < b /\ nth i m 0 = b + dot Pi m).
  { intros i HiN Hi.
    destruct (lookup_lt_is_Some_2 P i HiN) as [Pi HPi].
    destruct (lookup_lt_is_Some_2 tau i ltac:(lia)) as [ti Hti].
    exists Pi, (dot Pi ti). split; [exact HPi|].
    split; [rewrite (HProws _ _ HPi); congruence|].
    split; [|exact (Hrec _ _ _ HPi Hti Hi)].
    exact (mean_lifetime_positive P tau product i Pi ti
             Hnn Hsum Hlag HPi Hti Hi). }
  assert (Hall : Forall (Qcle 0) m).
  { destruct m as [|x m']; [constructor|].
    destruct (least_entry (x :: m') ltac:(discriminate))
      as (i & mu & Hi & Hmu).
    destruct (decide (0 <= mu)) as [Hpos|Hneg].
    { revert Hmu. apply List.Forall_impl. intros y Hy.
      eapply Qcle_trans; eassumption. }
    exfalso.
    pose proof (lookup_lt_Some _ _ _ Hi) as HiN. rewrite Hlen in HiN.
    pose proof (nth_lookup_Some _ _ 0 _ Hi) as Hnth.
    destruct (decide (i ∈ product)) as [Hin|Hout].
    - rewrite (Hprod i Hin HiN) in Hnth. subst mu. apply Hneg, Qcle_refl.
    - destruct (Hrow i HiN Hout) as (Pi & b & HPi & HlenPi & Hb & Heq).
      pose proof (dot_lower_bound mu Pi (x :: m') HlenPi (Hnn _ _ HPi) Hmu)
        as Hlow.
      rewrite (Hsum _ _ HPi Hout) in Hlow. rewrite Hnth in Heq.
      clear - Hb Heq Hlow. qc_lra. }
  split; [exact Hall|].
  intros i HiN Hi.
  destruct (Hrow i HiN Hi) as (Pi & b & HPi & HlenPi & Hb & Heq).
  pose proof (dot_lower_bound 0 Pi m HlenPi (Hnn _ _ HPi) Hall) as Hlow.
  rewrite Heq. clear - Hb Hlow. qc_lra.
Qed.

(** ** Scaling the lag times *)

Lemma nth_scale (k : Qc) (m : vector) (i : nat) :
  nth i (map (Qcmult k) m) 0 = k * nth i m 0.
Proof.
  revert i. induction m as [|x m IH]; intros [|i]; simpl;
    try ring; apply IH.
Qed.

Lemma weighted_sum_scale (k : Qc) (pi m : vector) (s : list nat) :
  weighted_sum pi (map (Qcmult k) m) s = k * weighted_sum pi m s.
Proof.
  induction s as [|i s IH]; cbn [weighted_sum foldr]; [ring|].
  fold (weighted_sum pi (map (Qcmult k) m) s).
  fold (weighted_sum pi m s). rewrite IH, nth_scale. ring.
Qed.

Lemma is_square_scale (k : Qc) (N : nat) (A : matrix) :
  is_square N (map (map (Qcmult k)) A) = is_square N A.
Proof.
  unfold is_square. rewrite length_map. f_equal.
  induction A as [|row A IH]; [reflexivity|].
  simpl. rewrite length_map, IH. reflexivity.
Qed.

Lemma mfpt_system_scale (k : Qc) (P tau : matrix) (product : list nat) :
  mfpt_system P (map (map (Qcmult k)) tau) product
  = map (scale_rhs k) (mfpt_system P tau product).
Proof.
  apply list_eq. intros i.
  rewrite list_lookup_fmap, !mfpt_system_lookup.
  rewrite !lookup_zip_with, list_lookup_fmap.
  destruct (P !! i) as [Pi|]; [|reflexivity].
  destruct (tau !! i) as [ti|]; [|reflexivity]. simpl. f_equal.
  unfold mfpt_equation, scale_rhs. case_bool_decide; simpl; f_equal.
  - ring.
  - apply dot_scale_r.
Qed.

Lemma mfpt_solve_scale (k : Qc) (P tau : matrix) (product : list nat) :
  mfpt_solve P (map (map (Qcmult k)) tau) product
  = map (Qcmult k) <$> mfpt_solve P tau product.
Proof.
  unfold mfpt_solve. rewrite is_square_scale.
  destruct (is_square (length P) P && is_square (length P) tau);
    [|reflexivity].
  rewrite mfpt_system_scale. apply gauss_scale.
Qed.

Lemma residence_weights_scale (k : Qc) (P tau : matrix) :
  residence_weights P (map (map (Qcmult k)) tau)
  = map (Qcmult k) (residence_weights P tau).
Proof.
  unfold residence_weights. revert tau.
  induction P as [|Pi P IH]; intros [|ti tau]; try reflexivity.
  simpl. rewrite dot_scale_r, IH. reflexivity.
Qed.

(** ** The stationary solve *)

Lemma length_column (A : matrix) (j : nat) : length (column A j) = length A.
Proof. unfold column. apply length_map. Qed.

Lemma stationary_system_well_formed (P : matrix) :
  well_formed (length P) (stationary_system P).
Proof.
  unfold well_formed, stationary_system. apply Forall_map.
  apply Forall_forall. intros j _. unfold stationary_equation.
  destruct (decide (S j = length P)); simpl.
  - apply length_replicate.
  - rewrite length_zip_with, length_unit_row, length_column. lia.
Qed.

Lemma clamp_nonneg (x : Qc) : 0 <= clamp x.
Proof.
  unfold clamp. destruct (decide (x < 0)) as [H|H];
    [apply Qcle_refl|qc_lra].
Qed.

Lemma total_nonneg (v : vector) : Forall (Qcle 0) v -> 0 <= total v.
Proof.
  induction v as [|x v IH]; intros H; [apply Qcle_refl|].
  rewrite total_cons. pose proof (List.Forall_inv H) as Hx.
  specialize (IH (List.Forall_inv_tail H)). clear H. qc_lra.
Qed.

Lemma total_map_div (s : Qc) (v : vector) :
  total (map (fun x => x / s) v) = total v / s.
Proof.
  induction v as [|x v IH]; cbn [map]; rewrite ?total_cons.
  - unfold total, Qcdiv. simpl. ring.
  - rewrite IH. unfold Qcdiv. ring.
Qed.

Lemma normalize_spec (v pi : vector) :
  Forall (Qcle 0) v -> normalize v = Some pi ->
  length pi = length v /\ Forall (Qcle 0) pi /\ total pi = 1.
Proof.
  unfold normalize. intros Hv H.
  destruct (decide (total v = 0)) as [|Hs]; [discriminate|].
  inversion H; subst pi. clear H.
  pose proof (total_nonneg v Hv) as Hs0.
  assert (Hinv : 0 < / total v) by (apply Qcinv_pos; qc_lra).
  split; [apply length_map|]. split.
  - apply Forall_map. revert Hv. apply List.Forall_impl. intros x Hx.
    unfold Qcdiv. generalize dependent (/ total v). intros r Hr.
    clear - Hx Hr. qc_nra.
  - rewrite total_map_div. field. exact Hs.
Qed.

Lemma length_residence_weights (P tau : matrix) :
  length P = length tau -> length (residence_weights P tau) = length P.
Proof.
  intros H. unfold residence_weights. rewrite length_zip_with. lia.
Qed.

(** ** Closed statements *)

Ltac by_computation := apply (bool_decide_unpack _); vm_compute; reflexivity.

(** ** Finite sums *)

Lemma sum_below_ext (n : nat) (f g : nat -> Qc) :
  (forall j, (j < n)%nat -> f j = g j) -> sum_below n f = sum_below n g.
Proof.
  revert f g. induction n as [|n IH]; intros f g H; [reflexivity|].
  simpl. rewrite (H 0%nat) by lia. f_equal. apply IH.
  intros j Hj. apply H. lia.
Qed.

Lemma sum_below_zero (n : nat) : sum_below n (fun _ => 0) = 0.
Proof. induction n as [|n IH]; simpl; [reflexivity|]. rewrite IH. ring. Qed.

Lemma sum_below_plus (n : nat) (f g : nat -> Qc) :
  sum_below n (fun j => f j + g j) = sum_below n f + sum_below n g.
Proof.
  revert f g. induction n as [|n IH]; intros f g; simpl; [ring|].
  rewrite IH. ring.
Qed.

Lemma sum_below_scale (n : nat) (a : Qc) (f : nat -> Qc) :
  sum_below n (fun j => f j * a) = a * sum_below n f.
Proof.
  revert f. induction n as [|n IH]; intros f; simpl; [ring|].
  rewrite IH. ring.
Qed.

Lemma sum_below_last (n : nat) (f : nat -> Qc) :
  sum_below (S n) f = sum_below n f + f n.
Proof.
  revert f. induction n as [|n IH]; intros f; [simpl; ring|].
  change (sum_below (S (S n)) f)
    with (f 0%nat + sum_below (S n) (fun j => f (S j))).
  rewrite IH. simpl. ring.
Qed.

Lemma sum_below_nth (x : vector) :
  sum_below (length x) (fun j => nth j x 0) = total x.
Proof.
  induction x as [|a x IH]; [reflexivity|].
  simpl. rewrite IH. reflexivity.
Qed.

Lemma sum_below_nonneg (n : nat) (f : nat -> Qc) :
  (forall j, (j < n)%nat -> 0 <= f j) -> 0 <= sum_below n f.
Proof.
  revert f. induction n as [|n IH]; intros f H; [apply Qcle_refl|].
  simpl. pose proof (H 0%nat ltac:(lia)) as H0.
  specialize (IH (fun j => f (S j)) ltac:(intros j Hj; apply H; lia)).
  generalize dependent (sum_below n (fun j => f (S j))).
  generalize dependent (f 0%nat). clear. intros a Ha b Hb. qc_lra.
Qed.

(** Terms that are not negative and sum to zero are zero. *)
Lemma sum_below_null (n : nat) (f : nat -> Qc) :
  (forall j, (j < n)%nat -> 0 <= f j) -> sum_below n f = 0 ->
  forall j, (j < n)%nat -> f j = 0.
Proof.
  revert f. induction n as [|n IH]; intros f H Hsum j Hj; [lia|].
  simpl in Hsum. pose proof (H 0%nat ltac:(lia)) as H0.
  pose proof (sum_below_nonneg n (fun j => f (S j))
                ltac:(intros i Hi; apply H; lia)) as Hrest.
  assert (f 0%nat = 0 /\ sum_below n (fun j => f (S j)) = 0) as [Hf0 Hr0].
  { generalize dependent (sum_below n (fun j => f (S j))).
    generalize dependent (f 0%nat). clear.
    intros a Ha b Hsum Hb. split; qc_lra. }
  destruct j as [|j]; [exact Hf0|].
  apply (IH (fun j => f (S j))); [intros i Hi; apply H; lia|exact Hr0|lia].
Qed.

(** Summing a vector-matrix product over the columns sums the row totals. *)
Lemma sum_below_columns (N : nat) (P : matrix) (x : vector) :
  (forall i row, P !! i = Some row -> length row = N) ->
  sum_below N (fun j => dot (column P j) x) = dot (map total P) x.
Proof.
  revert x. induction P as [|row P IH]; intros x Hrows.
  - simpl. apply sum_below_zero.
  - destruct x as [|a x].
    + rewrite dot_nil_r.
      rewrite (sum_below_ext N _ (fun _ => 0)); [apply sum_below_zero|].
      intros j _. apply dot_nil_r.
    + rewrite (sum_below_ext N _
                 (fun j => nth j row 0 * a + dot (column P j) x))
        by (intros; reflexivity).
      cbn [map dot]. rewrite sum_below_plus.
      rewrite IH by (intros i r Hr; apply (Hrows (S i) r Hr)).
      rewrite sum_below_scale.
      rewrite <- (Hrows 0%nat row eq_refl), sum_below_nth. ring.
Qed.

(** ** Stationarity of the solution *)

Lemma dot_ones (x : vector) : dot (replicate (length x) 1) x = total x.
Proof.
  induction x as [|a x IH]; [reflexivity|].
  cbn [length replicate dot]. rewrite IH, total_cons. ring.
Qed.

Lemma stochastic_tail (row : vector) (P : matrix) :
  stochastic (row :: P) -> stochastic P.
Proof. intros H i r Hr. exact (H (S i) r Hr). Qed.

Lemma stochastic_totals (P : matrix) :
  stochastic P -> map total P = replicate (length P) 1.
Proof.
  induction P as [|row P IH]; intros H; [reflexivity|].
  cbn [map length replicate].
  rewrite (proj2 (H 0%nat row eq_refl)), (IH (stochastic_tail _ _ H)).
  reflexivity.
Qed.

(** The equations of the stationary system, read off. *)
Lemma stationary_system_holds (P : matrix) (x : vector) :
  length x = length P ->
  (Forall (holds x) (stationary_system P) <->
   (forall j, (S j < length P)%nat -> dot (column P j) x = nth j x 0) /\
   (length P <> 0%nat -> total x = 1)).
Proof.
  intros Hlen. unfold stationary_system.
  rewrite List.Forall_map, List.Forall_forall.
  assert (Heq : forall j, (j < length P)%nat ->
            (holds x (stationary_equation (length P) P j) <->
             if decide (S j = length P) then total x = 1
             else dot (column P j) x = nth j x 0)).
  { intros j Hj. unfold holds, stationary_equation.
    destruct (decide (S j = length P)) as [HS|HS]; simpl.
    - rewrite <- Hlen, dot_ones. reflexivity.
    - rewrite dot_zip_minus by (rewrite length_unit_row, length_column; lia).
      rewrite dot_unit_row by (try exact Hlen; exact Hj).
      generalize (dot (column P j) x), (nth j x 0). clear.
      intros d y. split; intros H.
      + assert (y = y - d + d) as -> by ring. rewrite H. ring.
      + rewrite H. ring. }
  split.
  - intros H. split.
    + intros j Hj. specialize (H j ltac:(apply in_seq; lia)).
      apply Heq in H; [|lia].
      destruct (decide (S j = length P)); [lia|exact H].
    + intros HN. destruct (length P) as [|n] eqn:HP; [congruence|].
      specialize (H n ltac:(apply in_seq; lia)).
      apply Heq in H; [|lia].
      destruct (decide (S n = S n)); [exact H|congruence].
  - intros [Hbal Htot] j Hj. apply in_seq in Hj.
    apply Heq; [lia|].
    destruct (decide (S j = length P)); [apply Htot; lia|apply Hbal; lia].
Qed.

(** With rows that sum to one, the balance equation left out of the system
    follows from the others. *)
Lemma balanced_from_system (P : matrix) (x : vector) :
  stochastic P -> is_square (length P) P = true -> length x = length P ->
  (forall j, (S j < length P)%nat -> dot (column P j) x = nth j x 0) ->
  balanced P x.
Proof.
  intros Hst Hsq Hlen Hbal.
  destruct (is_square_spec _ _ Hsq) as [_ Hrows].
  destruct (length P) as [|n] eqn:HN; [intros j Hj; lia|].
  assert (Hsum : sum_below (S n) (fun j => dot (column P j) x)
                 = sum_below (S n) (fun j => nth j x 0)).
  { rewrite (sum_below_columns (S n) P x Hrows).
    rewrite (stochastic_totals P Hst), HN, <- Hlen, dot_ones.
    rewrite <- sum_below_nth. reflexivity. }
  rewrite !sum_below_last in Hsum.
  rewrite (sum_below_ext n _ (fun j => nth j x 0)) in Hsum
    by (intros j Hj; apply Hbal; lia).
  assert (Hn : dot (column P n) x = nth n x 0).
  { generalize dependent (sum_below n (fun j => nth j x 0)).
    intros s Hs. generalize dependent (dot (column P n) x).
    generalize (nth n x 0). clear. intros y d Hd.
    assert (d = s + d - s) as -> by ring. rewrite Hd. ring. }
  intros j Hj. destruct (decide (j = n)) as [->|Hne]; [exact Hn|].
  apply Hbal. lia.
Qed.

Lemma Qcabs_zero : Qcabs 0 = 0.
Proof. apply Qc_is_canon. reflexivity. Qed.

Lemma nth_abs (x : vector) (j : nat) :
  nth j (map Qcabs x) 0 = Qcabs (nth j x 0).
Proof.
  rewrite <- Qcabs_zero at 1. apply map_nth.
Qed.

Lemma dot_abs (c x : vector) :
  Forall (Qcle 0) c -> Qcabs (dot c x) <= dot c (map Qcabs x).
Proof.
  revert x. induction c as [|a c IH]; intros [|b x] Hc; cbn [map dot];
    try (rewrite Qcabs_zero; apply Qcle_refl).
  pose proof (List.Forall_inv Hc) as Ha.
  specialize (IH x (List.Forall_inv_tail Hc)).
  eapply Qcle_trans; [apply Qcabs_triangle|].
  rewrite Qcabs_Qcmult, (Qcabs_pos a Ha).
  apply Qcplus_le_compat; [apply Qcle_refl|exact IH].
Qed.

Lemma balanced_scale (k : Qc) (P : matrix) (x : vector) :
  balanced P x -> balanced P (map (Qcmult k) x).
Proof.
  intros H j Hj. rewrite dot_scale_r, nth_scale, (H j Hj). reflexivity.
Qed.

Lemma total_scale (k : Qc) (x : vector) :
  total (map (Qcmult k) x) = k * total x.
Proof.
  induction x as [|a x IH]; cbn [map]; rewrite ?total_cons.
  - unfold total. simpl. ring.
  - rewrite IH. ring.
Qed.

Lemma total_le_abs (x : vector) : total x <= total (map Qcabs x).
Proof.
  induction x as [|a x IH]; cbn [map]; rewrite ?total_cons.
  - apply Qcle_refl.
  - apply Qcplus_le_compat; [apply Qcle_Qcabs|exact IH].
Qed.

Lemma clamp_id (x : Qc) : 0 <= x -> clamp x = x.
Proof.
  intros H. unfold clamp. destruct (decide (x < 0)) as [Hn|]; [|reflexivity].
  exfalso. qc_lra.
Qed.

Lemma normalize_id (v : vector) : total v = 1 -> normalize v = Some v.
Proof.
  intros H. unfold normalize. rewrite H.
  destruct (decide (1 = 0)) as [H0|_]; [discriminate H0|].
  f_equal. rewrite <- (map_id v) at 2. apply map_ext.
  intros x. field. discriminate.
Qed.

(** ** Completeness of the elimination *)

Lemma find_pivot_None (n : nat) (eqs : list equation) :
  well_formed (S n) eqs -> find_pivot eqs = None ->
  Forall (fun e => exists es, e.1 = 0 :: es) eqs.
Proof.
  induction eqs as [|e rest IH]; intros Hwf H; [constructor|].
  pose proof (List.Forall_inv Hwf) as He.
  pose proof (List.Forall_inv_tail Hwf) as Hrest.
  simpl in H, He. destruct (e.1) as [|a es] eqn:Hc; [discriminate He|].
  destruct (decide (a = 0)) as [->|]; [|discriminate].
  constructor; [eauto|]. apply IH; [exact Hrest|].
  destruct (find_pivot rest) as [[p others]|]; [discriminate|reflexivity].
Qed.

(** When the elimination finds no pivot, no solution is the only one. *)
Lemma gauss_complete (n : nat) (eqs : list equation) (xs : vector) :
  well_formed n eqs -> length eqs = n -> gauss n eqs = None ->
  length xs = n -> Forall (holds xs) eqs ->
  exists ys, length ys = n /\ Forall (holds ys) eqs /\ ys <> xs.
Proof.
  revert eqs xs. induction n as [|n IH]; intros eqs xs Hwf Hn H Hlen Hxs.
  - destruct eqs; [discriminate H|discriminate Hn].
  - destruct xs as [|x0 xs]; [discriminate|]. simpl in Hlen, H.
    destruct (find_pivot eqs) as [[p others]|] eqn:Hpiv.
    + destruct (find_pivot_spec _ _ _ Hpiv) as [(a & ps & Hp & Ha) Hperm].
      assert (Hwf' : well_formed (S n) (p :: others)).
      { unfold well_formed. rewrite <- Hperm. exact Hwf. }
      simpl in H. rewrite Hp in H.
      destruct (gauss n (map (eliminate p) others)) as [zs|] eqn:Hrec;
        [discriminate|].
      rewrite Hperm in Hxs.
      pose proof (List.Forall_inv Hxs) as Hpx.
      pose proof (List.Forall_inv_tail Hxs) as Hox.
      pose proof (List.Forall_inv Hwf') as Hlp.
      pose proof (List.Forall_inv_tail Hwf') as Hlo.
      destruct p as [pc rp]. simpl in Hp. subst pc.
      unfold holds in Hpx. simpl in Hpx, Hlp.
      apply Permutation_length in Hperm. simpl in Hperm.
      destruct (IH (map (eliminate (a :: ps, rp)) others) xs)
        as (ys & Hlys & Hys & Hne).
      { apply eliminate_well_formed. exact Hwf'. }
      { rewrite length_map. lia. }
      { exact Hrec. }
      { lia. }
      { apply Forall_map. rewrite Forall_forall in Hox, Hlo |- *.
        intros [ec re] He. specialize (Hox _ He). specialize (Hlo _ He).
        simpl in Hlo. destruct ec as [|b es]; [discriminate|].
        apply (eliminate_holds a b x0 rp re ps es xs Ha);
          [simpl in *; lia|exact Hpx|exact Hox]. }
      exists ((rp - dot ps ys) / a :: ys).
      assert (Hy0 : a * ((rp - dot ps ys) / a) + dot ps ys = rp)
        by (field; exact Ha).
      split; [simpl; lia|]. split; [|congruence].
      assert (Hall : Forall (holds ((rp - dot ps ys) / a :: ys))
                       ((a :: ps, rp) :: others)).
      { constructor; [exact Hy0|].
        rewrite Forall_map in Hys. rewrite Forall_forall in Hys, Hlo |- *.
        intros [ec re] He. specialize (Hys _ He). specialize (Hlo _ He).
        simpl in Hlo, Hys. destruct ec as [|b es]; [discriminate|].
        apply (eliminate_holds a b _ rp re ps es ys Ha);
          [simpl in *; lia|exact Hy0|exact Hys]. }
      apply find_pivot_spec in Hpiv as [_ Hperm'].
      rewrite Hperm'. exact Hall.
    + exists (x0 + 1 :: xs). split; [simpl; lia|]. split.
      * pose proof (find_pivot_None _ _ Hwf Hpiv) as Hzero.
        rewrite Forall_forall in Hxs, Hzero |- *.
        intros [ec re] He. specialize (Hxs _ He).
        destruct (Hzero _ He) as [es Hes]. simpl in Hes. subst ec.
        unfold holds in *. simpl in *. rewrite <- Hxs. ring.
      * intros Heq. inversion Heq as [H1].
        assert (H2 : x0 + 1 - x0 = x0 - x0) by (rewrite H1; reflexivity).
        ring_simplify in H2. discriminate H2.
Qed.

(** The elimination returns a point exactly when the system has exactly one
    solution, and then it returns that solution. *)
Lemma gauss_unique_solution (n : nat) (eqs : list equation) :
  well_formed n eqs -> length eqs = n ->
  (unique_solution n eqs <-> exists xs, gauss n eqs = Some xs).
Proof.
  intros Hwf Hn. split.
  - intros (xs & Hlen & Hxs & Huniq).
    destruct (gauss n eqs) as [ys|] eqn:Hg; [eauto|].
    destruct (gauss_complete n eqs xs Hwf Hn Hg Hlen Hxs)
      as (ys & Hly & Hys & Hne).
    exfalso. apply Hne. apply Huniq; assumption.
  - intros [xs Hg].
    destruct (gauss_sound n eqs xs Hwf Hg) as [Hlen Hxs].
    exists xs. split; [exact Hlen|]. split; [exact Hxs|].
    intros ys Hly Hys. exact (gauss_unique n eqs xs ys Hwf Hg Hly Hys).
Qed.

(** ** The pair returned by the stationary solve *)

Lemma length_stationary_system (P : matrix) :
  length (stationary_system P) = length P.
Proof. unfold stationary_system. rewrite length_map, length_seq. reflexivity. Qed.

(** ** Kernels whose recursion has a solution *)

Lemma dot_zeros_r (u : vector) (n : nat) : dot u (replicate n 0) = 0.
Proof.
  revert n. induction u as [|a u IH]; intros [|n]; simpl; try reflexivity.
  rewrite IH. ring.
Qed.

(** When the elimination finds no pivot, the coefficients annihilate a
    vector that is not zero. *)
Lemma gauss_singular (n : nat) (eqs : list equation) :
  well_formed n eqs -> length eqs = n -> gauss n eqs = None ->
  exists h, length h = n /\ h <> replicate n 0 /\
            Forall (fun e => dot e.1 h = 0) eqs.
Proof.
  revert eqs. induction n as [|n IH]; intros eqs Hwf Hn H.
  - destruct eqs; [discriminate H|discriminate Hn].
  - simpl in H. destruct (find_pivot eqs) as [[p others]|] eqn:Hpiv.
    + destruct (find_pivot_spec _ _ _ Hpiv) as [(a & ps & Hp & Ha) Hperm].
      assert (Hwf' : well_formed (S n) (p :: others)).
      { unfold well_formed. rewrite <- Hperm. exact Hwf. }
      simpl in H. rewrite Hp in H.
      destruct (gauss n (map (eliminate p) others)) as [zs|] eqn:Hrec;
        [discriminate|].
      pose proof (List.Forall_inv Hwf') as Hlp.
      pose proof (List.Forall_inv_tail Hwf') as Hlo.
      destruct p as [pc rp]. simpl in Hp, Hlp. subst pc. simpl in Hlp.
      pose proof (Permutation_length Hperm) as Hlen. simpl in Hlen.
      destruct (IH (map (eliminate (a :: ps, rp)) others))
        as (h & Hlh & Hne & Hh).
      { apply eliminate_well_formed. exact Hwf'. }
      { rewrite length_map. lia. }
      { exact Hrec. }
      exists (- dot ps h / a :: h).
      split; [simpl; lia|]. split.
      { intros Heq. simpl in Heq. inversion Heq. contradiction. }
      rewrite Hperm. constructor.
      { simpl. field. exact Ha. }
      rewrite Forall_map in Hh. rewrite Forall_forall in Hh, Hlo |- *.
      intros [ec re] He. specialize (Hh _ He). specialize (Hlo _ He).
      simpl in Hlo. destruct ec as [|b es]; [discriminate|].
      unfold eliminate in Hh. simpl in Hh.
      rewrite dot_eliminate in Hh by (simpl in *; lia).
      simpl.
      assert (dot es h = dot es h - b / a * dot ps h + b / a * dot ps h)
        as -> by ring.
      rewrite Hh. field. exact Ha.
    + exists (1 :: replicate n 0).
      split; [simpl; rewrite length_replicate; reflexivity|]. split.
      { intros Heq. simpl in Heq. inversion Heq. }
      pose proof (find_pivot_None _ _ Hwf Hpiv) as Hzero.
      rewrite Forall_forall in Hzero |- *. intros [ec re] He.
      destruct (Hzero _ He) as [es Hes]. simpl in Hes. subst ec.
      simpl. rewrite dot_zeros_r. ring.
Qed.

Lemma greatest_entry (m : vector) :
  m <> [] -> exists i M, m !! i = Some M /\ Forall (fun x => x <= M) m.
Proof.
  induction m as [|x m IH]; [congruence|]. intros _.
  destruct m as [|y m].
  - exists 0%nat, x. split; [reflexivity|].
    constructor; [apply Qcle_refl|constructor].
  - destruct IH as (i & M & Hi & HM); [discriminate|].
    destruct (decide (M <= x)) as [Hx|Hx].
    + exists 0%nat, x. split; [reflexivity|].
      constructor; [apply Qcle_refl|].
      revert HM. apply List.Forall_impl. intros z Hz.
      eapply Qcle_trans; eassumption.
    + exists (S i), M. split; [exact Hi|].
      constructor; [qc_lra|exact HM].
Qed.

Lemma nth_upper (M : Qc) (h : vector) (j : nat) :
  Forall (fun x => x <= M) h -> (j < length h)%nat -> nth j h 0 <= M.
Proof.
  revert j. induction h as [|x h IH]; intros j H Hj; simpl in Hj; [lia|].
  destruct j as [|j]; simpl.
  - exact (List.Forall_inv H).
  - apply IH; [exact (List.Forall_inv_tail H)|lia].
Qed.

Lemma nth_positive_in_range (u : vector) (j : nat) :
  0 < nth j u 0 -> (j < length u)%nat.
Proof.
  intros H. destruct (decide (j < length u)%nat) as [|Hge]; [assumption|].
  rewrite nth_overflow in H by lia. discriminate H.
Qed.

Lemma Qcmult_upper (a x M : Qc) : 0 <= a -> x <= M -> a * x <= M * a.
Proof. intros Ha Hx. qc_nra. Qed.

Lemma Qcmult_strict_upper (a x M : Qc) : 0 < a -> x < M -> a * x < M * a.
Proof. intros Ha Hx. qc_nra. Qed.

Lemma dot_upper_bound (M : Qc) (u h : vector) :
  length u = length h -> Forall (Qcle 0) u -> Forall (fun x => x <= M) h ->
  dot u h <= M * total u.
Proof.
  revert h. induction u as [|a u IH]; intros [|x h] Hlen Hu Hh;
    simpl in Hlen; try discriminate.
  - cbn [dot total foldr]. qc_lra.
  - pose proof (Qcmult_upper a x M (List.Forall_inv Hu) (List.Forall_inv Hh)).
    specialize (IH h ltac:(congruence) (List.Forall_inv_tail Hu)
                  (List.Forall_inv_tail Hh)).
    rewrite total_cons. cbn [dot]. clear Hu Hh. qc_lra.
Qed.

(** An average with a positive weight on an entry below [M] is below
    [M]. *)
Lemma dot_strict_upper (M : Qc) (u h : vector) (j : nat) :
  length u = length h -> Forall (Qcle 0) u -> Forall (fun x => x <= M) h ->
  0 < nth j u 0 -> nth j h 0 < M -> dot u h < M * total u.
Proof.
  revert h j. induction u as [|a u IH]; intros [|x h] j Hlen Hu Hh Hpos Hlt;
    simpl in Hlen; try discriminate.
  - destruct j; discriminate Hpos.
  - pose proof (List.Forall_inv Hu) as Ha.
    pose proof (List.Forall_inv Hh) as Hx.
    apply List.Forall_inv_tail in Hu, Hh.
    rewrite total_cons. cbn [dot]. destruct j as [|j]; simpl in Hpos, Hlt.
    + pose proof (Qcmult_strict_upper a x M Hpos Hlt).
      pose proof (dot_upper_bound M u h ltac:(congruence) Hu Hh).
      clear Hu Hh IH. qc_lra.
    + pose proof (Qcmult_upper a x M Ha Hx).
      specialize (IH h j ltac:(congruence) Hu Hh Hpos Hlt).
      clear Hu Hh. qc_lra.
Qed.

Section MaximumPrinciple.

Variable K : transition_kernel.
Hypothesis Hvalid : valid_kernel K.
Hypothesis Hreach : forall i, (i < milestones K)%nat -> reaches_product K i.

(** [h] vanishes on the product set and is the average of its successors
    elsewhere. *)
Variable h : vector.
Hypothesis Hlen : length h = milestones K.
Hypothesis Hproduct :
  forall i, i ∈ tk_product K -> (i < milestones K)%nat -> nth i h 0 = 0.
Hypothesis Haverage :
  forall i row, tk_P K !! i = Some row -> i ∉ tk_product K ->
                nth i h 0 = dot row h.

Lemma greatest_reaches_zero (M : Qc) (i : nat) :
  Forall (fun x => x <= M) h ->
  reaches_product K i -> nth i h 0 = M -> M <= 0.
Proof using Hvalid Hlen Hproduct Haverage.
  intros HM Hi. unfold reaches_product in Hi.
  induction Hi as [i Hin HiN|i j _ Hij Hj IH]; intros Heq.
  - rewrite <- Heq, (Hproduct i Hin HiN). apply Qcle_refl.
  - destruct Hvalid as (HP & _ & Hnn & Hsum).
    destruct (is_square_spec _ _ HP) as [_ Hrows].
    destruct (tk_P K !! i) as [row|] eqn:Hrow.
    2:{ unfold entry in Hij. apply lookup_ge_None in Hrow.
        rewrite (nth_overflow (tk_P K) [] Hrow) in Hij.
        destruct j; discriminate Hij. }
    rewrite (entry_lookup _ _ _ _ Hrow) in Hij.
    pose proof (lookup_lt_Some _ _ _ Hrow) as HiN.
    destruct (decide (i ∈ tk_product K)) as [Hin|Hout].
    { rewrite <- Heq, (Hproduct i Hin HiN). apply Qcle_refl. }
    pose proof (nth_positive_in_range row j Hij) as HjN.
    rewrite (Hrows _ _ Hrow) in HjN.
    apply IH. destruct (decide (nth j h 0 < M)) as [Hlt|Hge].
    + exfalso.
      pose proof (dot_strict_upper M row h j
                    ltac:(rewrite (Hrows _ _ Hrow); congruence)
                    (Hnn _ _ Hrow) HM Hij Hlt) as Hs.
      rewrite (Hsum _ _ Hrow Hout), <- (Haverage _ _ Hrow Hout), Heq in Hs.
      clear - Hs. qc_lra.
    + pose proof (nth_upper M h j HM ltac:(lia)) as Hle.
      clear - Hge Hle. qc_lra.
Qed.

Lemma harmonic_upper : Forall (fun x => x <= 0) h.
Proof using Hvalid Hreach Hlen Hproduct Haverage.
  destruct (decide (h = [])) as [Hnil|Hne]; [rewrite Hnil; constructor|].
  destruct (greatest_entry h Hne) as (i & M & Hi & HM).
  pose proof (lookup_lt_Some _ _ _ Hi) as HiN. rewrite Hlen in HiN.
  pose proof (greatest_reaches_zero M i HM (Hreach i HiN)
                (nth_lookup_Some _ _ 0 _ Hi)) as HM0.
  revert HM. apply List.Forall_impl. intros y Hy.
  eapply Qcle_trans; eassumption.
Qed.

End MaximumPrinciple.

Lemma all_zero (h : vector) :
  Forall (fun x => x <= 0) h -> Forall (fun x => - (1) * x <= 0) h ->
  h = replicate (length h) 0.
Proof.
  induction h as [|x h IH]; intros Hu Hl; [reflexivity|].
  pose proof (List.Forall_inv Hu) as Hx1.
  pose proof (List.Forall_inv Hl) as Hx2. simpl in Hx2.
  cbn [length replicate]. f_equal.
  - clear - Hx1 Hx2. qc_lra.
  - apply IH; [exact (List.Forall_inv_tail Hu)|exact (List.Forall_inv_tail Hl)].
Qed.

(** In a valid kernel where every milestone has a path to the product set,
    only the zero vector vanishes on the product set and averages its
    successors elsewhere. *)
Lemma harmonic_zero (K : transition_kernel) (h : vector) :
  valid_kernel K ->
  (forall i, (i < milestones K)%nat -> reaches_product K i) ->
  length h = milestones K ->
  (forall i, i ∈ tk_product K -> (i < milestones K)%nat -> nth i h 0 = 0) ->
  (forall i row, tk_P K !! i = Some row -> i ∉ tk_product K ->
                 nth i h 0 = dot row h) ->
  h = replicate (milestones K) 0.
Proof.
  intros Hvalid Hreach Hlen Hproduct Haverage. rewrite <- Hlen.
  apply all_zero.
  - exact (harmonic_upper K Hvalid Hreach h Hlen Hproduct Haverage).
  - apply (proj1 (List.Forall_map (Qcmult (- (1))) (fun x => x <= 0) h)).
    apply (harmonic_upper K Hvalid Hreach (map (Qcmult (- (1))) h)).
    + rewrite length_map. exact Hlen.
    + intros i Hi HiN. rewrite nth_scale, (Hproduct i Hi HiN). ring.
    + intros i row Hrow Hi.
      rewrite nth_scale, dot_scale_r, (Haverage i row Hrow Hi).
      reflexivity.
Qed.

Lemma length_mfpt_system (P tau : matrix) (product : list nat) :
  length P = length tau -> length (mfpt_system P tau product) = length P.
Proof.
  intros H. unfold mfpt_system. rewrite length_imap, length_zip_with. lia.
Qed.

(** The recursion of a valid kernel has a solution when every milestone has
    a finite path to the absorbing set. *)
Lemma mfpt_solve_defined (K : transition_kernel) :
  valid_kernel K ->
  (forall i, (i < milestones K)%nat -> reaches_product K i) ->
  exists m, mfpt_solve (tk_P K) (tk_tau K) (tk_product K) = Some m.
Proof.
  intros Hvalid Hreach.
  pose proof Hvalid as (HP & Ht & _).
  unfold mfpt_solve. unfold milestones in *. rewrite HP, Ht. simpl.
  destruct (is_square_spec _ _ HP) as [_ HProws].
  destruct (is_square_spec _ _ Ht) as [Htlen _].
  destruct (gauss _ _) as [m|] eqn:Hg; [eauto|]. exfalso.
  destruct (gauss_singular _ _ (mfpt_system_well_formed _ _ _ HP)
              (length_mfpt_system _ _ _ (eq_sym Htlen)) Hg)
    as (h & Hlen & Hne & Hh).
  apply Hne. apply (harmonic_zero K h Hvalid Hreach Hlen);
    rewrite Forall_lookup in Hh.
  - intros i Hi HiN. unfold milestones in HiN.
    destruct (lookup_lt_is_Some_2 (tk_P K) i HiN) as [Pi HPi].
    destruct (lookup_lt_is_Some_2 (tk_tau K) i ltac:(lia)) as [ti Hti].
    specialize (Hh i (mfpt_equation (length (tk_P K)) (tk_product K) i
                        (Pi, ti))).
    rewrite mfpt_system_lookup in Hh.
    erewrite (proj2 (lookup_zip_with_Some pair _ _ i (Pi, ti))) in Hh
      by eauto.
    specialize (Hh eq_refl). unfold mfpt_equation in Hh.
    rewrite bool_decide_eq_true_2 in Hh by exact Hi. simpl in Hh.
    rewrite dot_unit_row in Hh by assumption. exact Hh.
  - intros i Pi HPi Hi.
    pose proof (lookup_lt_Some _ _ _ HPi) as HiN.
    destruct (lookup_lt_is_Some_2 (tk_tau K) i ltac:(lia)) as [ti Hti].
    specialize (Hh i (mfpt_equation (length (tk_P K)) (tk_product K) i
                        (Pi, ti))).
    rewrite mfpt_system_lookup in Hh.
    erewrite (proj2 (lookup_zip_with_Some pair _ _ i (Pi, ti))) in Hh
      by eauto.
    specialize (Hh eq_refl). unfold mfpt_equation in Hh.
    rewrite bool_decide_eq_false_2 in Hh by exact Hi. simpl in Hh.
    rewrite dot_zip_minus in Hh
      by (rewrite length_unit_row, (HProws _ _ HPi); reflexivity).
    rewrite dot_unit_row in Hh by assumption.
    revert Hh. generalize (nth i h 0), (dot Pi h). clear.
    intros y d H. assert (y = y - d + d) as -> by ring. rewrite H. ring.
Qed.

(** ** The check of the data *)

Lemma probability_row_spec (product : list nat) (i : nat) (row : vector) :
  probability_row product i row = true ->
  Forall (Qcle 0) row /\
  (total row = 1 \/ (i ∈ product /\ total row = 0)).
Proof.
  unfold probability_row. intros H. apply andb_prop in H as [H1 H2]. split.
  - apply Forall_forall. intros x Hx. rewrite forallb_forall in H1.
    eapply bool_decide_eq_true_1, H1. exact Hx.
  - apply orb_prop in H2 as [H2|H2].
    + left. exact (bool_decide_eq_true_1 _ H2).
    + right. apply andb_prop in H2 as [Ha Hb].
      split; eapply bool_decide_eq_true_1; eassumption.
Qed.

Lemma valid_matrices_spec (P tau : matrix) (product : list nat) :
  valid_matrices P tau product = true ->
  is_square (length P) P = true /\ is_square (length P) tau = true /\
  forall i row, P !! i = Some row ->
    Forall (Qcle 0) row /\
    (total row = 1 \/ (i ∈ product /\ total row = 0)).
Proof.
  unfold valid_matrices. intros H.
  apply andb_prop in H as [H H3]. apply andb_prop in H as [H1 H2].
  split; [exact H1|]. split; [exact H2|].
  intros i row Hrow. apply probability_row_spec.
  rewrite forallb_forall in H3.
  apply (H3 (probability_row product i row)).
  apply list_elem_of_In, list_elem_of_lookup. exists i.
  rewrite list_lookup_imap, Hrow. reflexivity.
Qed.

Lemma valid_matrices_substochastic (P tau : matrix) (product : list nat) :
  valid_matrices P tau product = true -> substochastic P.
Proof.
  intros H i row Hrow.
  destruct (valid_matrices_spec _ _ _ H) as (_ & _ & Hrows).
  destruct (Hrows i row Hrow) as [Hnn [Ht|[_ Ht]]]; (split; [exact Hnn|]);
    rewrite Ht; discriminate.
Qed.

(** Valid data make a valid kernel, whatever set that contains the product
    set is taken as absorbing. *)
Lemma valid_matrices_kernel (P tau : matrix) (product : list nat)
    (reactant absorbing : list nat) :
  valid_matrices P tau product = true ->
  (forall i, i ∈ product -> i ∈ absorbing) ->
  valid_kernel (TransitionKernel P tau reactant absorbing).
Proof.
  intros H Hsub.
  destruct (valid_matrices_spec _ _ _ H) as (HP & Ht & Hrows).
  unfold valid_kernel, milestones. simpl.
  split; [exact HP|]. split; [exact Ht|]. split.
  - intros i row Hrow. exact (proj1 (Hrows i row Hrow)).
  - intros i row Hrow Hi.
    destruct (Hrows i row Hrow) as [_ [Ht1|[Hin _]]]; [exact Ht1|].
    exfalso. apply Hi, Hsub, Hin.
Qed.

Lemma valid_matrices_scale (k : Qc) (P tau : matrix) (product : list nat) :
  valid_matrices P (map (map (Qcmult k)) tau) product
  = valid_matrices P tau product.
Proof. unfold valid_matrices. rewrite is_square_scale. reflexivity. Qed.

(** ** Matrices of probabilities *)

Lemma column_nonneg (P : matrix) (j : nat) :
  (forall i row, P !! i = Some row -> Forall (Qcle 0) row) ->
  Forall (Qcle 0) (column P j).
Proof.
  intros H. unfold column. apply Forall_map, Forall_lookup.
  intros i row Hrow. apply nth_nonneg. exact (H i row Hrow).
Qed.

Lemma Qcmult_le_one (a b : Qc) : a <= 1 -> 0 <= b -> a * b <= b.
Proof. intros Ha Hb. qc_nra. Qed.

(** Weights of at most one give at most the total. *)
Lemma dot_le_total (u v : vector) :
  Forall (fun a => a <= 1) u -> Forall (Qcle 0) v -> dot u v <= total v.
Proof.
  revert v. induction u as [|a u IH]; intros v Hu Hv.
  - simpl. apply total_nonneg. exact Hv.
  - destruct v as [|b v]; [apply Qcle_refl|].
    pose proof (Qcmult_le_one a b (List.Forall_inv Hu) (List.Forall_inv Hv)).
    specialize (IH v (List.Forall_inv_tail Hu) (List.Forall_inv_tail Hv)).
    rewrite total_cons. cbn [dot]. clear Hu Hv. qc_lra.
Qed.

(** If [x = x P] then [|x| = |x| P], for a matrix of probabilities. *)
Lemma balanced_abs (P : matrix) (x : vector) :
  substochastic P -> is_square (length P) P = true -> length x = length P ->
  balanced P x -> balanced P (map Qcabs x).
Proof.
  intros Hst Hsq Hlen Hbal.
  destruct (is_square_spec _ _ Hsq) as [_ Hrows].
  set (gap := fun j => dot (column P j) (map Qcabs x)
                       + nth j (map Qcabs x) 0 * (- (1))).
  assert (Hgap : forall j, (j < length P)%nat -> 0 <= gap j).
  { intros j Hj. unfold gap. rewrite nth_abs, <- (Hbal j Hj).
    pose proof (dot_abs (column P j) x
                  (column_nonneg P j (fun i r Hr => proj1 (Hst i r Hr)))) as H.
    generalize dependent (dot (column P j) (map Qcabs x)).
    generalize (Qcabs (dot (column P j) x)). clear. intros a b H. qc_lra. }
  assert (Hsum : sum_below (length P) gap = 0).
  { pose proof (sum_below_nonneg _ gap Hgap) as Hlow.
    assert (Hup : sum_below (length P) gap <= 0).
    { unfold gap. rewrite sum_below_plus, sum_below_scale.
      rewrite (sum_below_columns (length P) P _ Hrows).
      replace (length P) with (length (map Qcabs x))
        by (rewrite length_map; exact Hlen).
      rewrite sum_below_nth.
      pose proof (dot_le_total (map total P) (map Qcabs x)) as H.
      assert (H1 : Forall (fun a => a <= 1) (map total P)).
      { apply Forall_map, Forall_lookup. intros i r Hr.
        exact (proj2 (Hst i r Hr)). }
      assert (H2 : Forall (Qcle 0) (map Qcabs x)).
      { apply Forall_map, Forall_forall. intros y _. apply Qcabs_nonneg. }
      specialize (H H1 H2).
      generalize dependent (dot (map total P) (map Qcabs x)).
      generalize (total (map Qcabs x)). clear. intros t d H. qc_lra. }
    generalize dependent (sum_below (length P) gap). clear.
    intros s H1 H2. qc_lra. }
  intros j Hj.
  pose proof (sum_below_null _ gap Hgap Hsum j Hj) as H0. unfold gap in H0.
  unfold balanced. revert H0.
  generalize (dot (column P j) (map Qcabs x)), (nth j (map Qcabs x) 0).
  clear. intros d y H.
  assert (d = d + y * - (1) + y) as -> by ring. rewrite H. ring.
Qed.

(** The solution of the stationary system of a matrix of probabilities, when
    the balance equation left out holds at it, has no negative entry and
    solves every balance equation. *)
Lemma stationary_solution (P : matrix) (raw : vector) :
  substochastic P -> is_square (length P) P = true -> length P <> 0%nat ->
  gauss (length P) (stationary_system P) = Some raw ->
  left_out_holds P raw = true ->
  length raw = length P /\ Forall (Qcle 0) raw /\ total raw = 1 /\
  balanced P raw.
Proof.
  intros Hst Hsq HN Hraw Hlast.
  destruct (gauss_sound _ _ _ (stationary_system_well_formed P) Hraw)
    as [Hlen Hsol].
  apply (stationary_system_holds P raw Hlen) in Hsol as [Hbal Htot].
  specialize (Htot HN).
  assert (Hall : balanced P raw).
  { intros j Hj. destruct (decide (S j = length P)) as [HS|HS].
    - apply bool_decide_eq_true_1 in Hlast.
      replace j with (pred (length P)) by lia. exact Hlast.
    - apply Hbal. lia. }
  pose proof (balanced_abs P raw Hst Hsq Hlen Hall) as Habs.
  set (s := total (map Qcabs raw)).
  assert (Hs : 0 < s).
  { pose proof (total_le_abs raw) as H. fold s in H. rewrite Htot in H.
    generalize dependent s. clear. intros s H. qc_lra. }
  assert (Hs0 : s <> 0).
  { intros H0. rewrite H0 in Hs. discriminate Hs. }
  assert (Heq : map (Qcmult (/ s)) (map Qcabs raw) = raw).
  { apply (gauss_unique _ _ _ _ (stationary_system_well_formed P) Hraw).
    - rewrite !length_map. exact Hlen.
    - apply stationary_system_holds;
        [rewrite !length_map; exact Hlen|].
      split.
      + intros j Hj. apply (balanced_scale _ _ _ Habs). lia.
      + intros _. rewrite total_scale. fold s. field. exact Hs0. }
  split; [exact Hlen|]. split; [|split; [exact Htot|exact Hall]].
  rewrite <- Heq. apply Forall_map, Forall_map, Forall_forall.
  intros x _. simpl.
  pose proof (Qcabs_nonneg x) as Hx. pose proof (Qcinv_pos s Hs) as Hi.
  generalize dependent (Qcabs x). generalize dependent (/ s).
  clear. intros r Hr a Ha. qc_nra.
Qed.

(** With rows that all sum to one the equation left out is redundant. *)
Lemma left_out_redundant (P : matrix) (raw : vector) :
  stochastic P -> is_square (length P) P = true ->
  gauss (length P) (stationary_system P) = Some raw ->
  left_out_holds P raw = true.
Proof.
  intros Hst Hsq Hraw.
  destruct (gauss_sound _ _ _ (stationary_system_well_formed P) Hraw)
    as [Hlen Hsol].
  apply (stationary_system_holds P raw Hlen) in Hsol as [Hbal _].
  pose proof (balanced_from_system P raw Hst Hsq Hlen Hbal) as Hall.
  apply bool_decide_eq_true_2.
  destruct (decide (length P = 0%nat)) as [H0|HN].
  - rewrite H0 in Hraw. simpl in Hraw.
    destruct (stationary_system P); [|discriminate].
    inversion Hraw. destruct P; [reflexivity|discriminate H0].
  - apply Hall. lia.
Qed.

Lemma gauss_no_unknown (eqs : list equation) (xs : vector) :
  gauss 0 eqs = Some xs -> xs = [].
Proof. simpl. destruct eqs; intros H; [congruence|discriminate]. Qed.

(** What the stationary solve returns is the solution of the stationary
    system, and a stationary distribution. *)
Lemma compute_distributions_stationary (K : transition_kernel)
    (pi q : vector) :
  compute_distributions K = Some (pi, q) ->
  valid_matrices (tk_P K) (tk_tau K) (tk_product K) = true /\
  gauss (milestones K) (stationary_system (tk_P K)) = Some pi /\
  stationary_distribution (tk_P K) pi /\
  q = residence_weights (tk_P K) (tk_tau K).
Proof.
  unfold compute_distributions, milestones.
  destruct (valid_matrices _ _ _) eqn:Hvalid; [|discriminate].
  destruct (gauss _ _) as [raw|] eqn:Hraw; [|discriminate]. simpl.
  destruct (left_out_holds _ raw) eqn:Hlast; [|discriminate].
  destruct (valid_matrices_spec _ _ _ Hvalid) as (HP & _ & _).
  destruct (decide (length (tk_P K) = 0%nat)) as [H0|HN].
  { rewrite H0 in Hraw. apply gauss_no_unknown in Hraw. subst raw.
    discriminate. }
  destruct (stationary_solution _ _ (valid_matrices_substochastic _ _ _ Hvalid)
              HP HN Hraw Hlast) as (Hlen & Hnn & Htot & Hbal).
  assert (map clamp raw = raw) as ->.
  { rewrite <- (map_id raw) at 2. apply map_ext_in.
    intros x Hx. apply clamp_id.
    rewrite List.Forall_forall in Hnn. exact (Hnn x Hx). }
  rewrite (normalize_id raw Htot). simpl.
  intros H. inversion H; subst pi q.
  repeat split; assumption.
Qed.

(** A stationary vector of valid data, when the stationary system has no
    other solution, is what the stationary solve returns. *)
Lemma compute_distributions_complete (K : transition_kernel) (x : vector) :
  valid_matrices (tk_P K) (tk_tau K) (tk_product K) = true ->
  unique_solution (milestones K) (stationary_system (tk_P K)) ->
  length x = milestones K -> balanced (tk_P K) x -> total x = 1 ->
  compute_distributions K
  = Some (x, residence_weights (tk_P K) (tk_tau K)).
Proof.
  intros Hvalid Huniq Hlen Hbal Htot. unfold milestones in *.
  apply (gauss_unique_solution _ _ (stationary_system_well_formed _)
           (length_stationary_system _)) in Huniq as [raw Hraw].
  assert (Hx : x = raw).
  { apply (gauss_unique _ _ _ _ (stationary_system_well_formed _) Hraw Hlen).
    apply (stationary_system_holds _ x Hlen). split.
    - intros j Hj. apply Hbal. lia.
    - intros _. exact Htot. }
  subst raw.
  assert (HN : length (tk_P K) <> 0%nat).
  { intros H0. rewrite H0 in Hlen. destruct x; [|discriminate Hlen].
    discriminate Htot. }
  assert (Hlast : left_out_holds (tk_P K) x = true).
  { apply bool_decide_eq_true_2. apply Hbal. lia. }
  destruct (valid_matrices_spec _ _ _ Hvalid) as (HP & _ & _).
  destruct (stationary_solution _ _ (valid_matrices_substochastic _ _ _ Hvalid)
              HP HN Hraw Hlast) as (_ & Hnn & _ & _).
  unfold compute_distributions, milestones.
  rewrite Hvalid, Hraw. simpl. rewrite Hlast.
  assert (map clamp x = x) as ->.
  { rewrite <- (map_id x) at 2. apply map_ext_in.
    intros y Hy. apply clamp_id.
    rewrite List.Forall_forall in Hnn. exact (Hnn y Hy). }
  rewrite (normalize_id x Htot). reflexivity.
Qed.

(** An inner product is a finite sum. *)
Lemma dot_sum_below (n : nat) (u v : vector) :
  length u = n -> length v = n ->
  dot u v = sum_below n (fun j => nth j u 0 * nth j v 0).
Proof.
  revert u v. induction n as [|n IH]; intros [|a u] [|b v] Hu Hv;
    simpl in Hu, Hv; try discriminate; [reflexivity|].
  simpl. rewrite (IH u v) by congruence. reflexivity.
Qed.

(** The residence-time weight of milestone [i] is [sum_j P_ij tau_ij]. *)
Lemma residence_weights_nth (P tau : matrix) (i : nat) :
  is_square (length P) P = true -> is_square (length P) tau = true ->
  (i < length P)%nat ->
  nth i (residence_weights P tau) 0
  = sum_below (length P) (fun j => entry P i j * entry tau i j).
Proof.
  intros HP Ht Hi.
  destruct (is_square_spec _ _ HP) as [_ HProws].
  destruct (is_square_spec _ _ Ht) as [Htlen Htrows].
  destruct (lookup_lt_is_Some_2 P i Hi) as [Pi HPi].
  destruct (lookup_lt_is_Some_2 tau i ltac:(lia)) as [ti Hti].
  assert (Hq : residence_weights P tau !! i = Some (dot Pi ti)).
  { unfold residence_weights. rewrite lookup_zip_with, HPi, Hti.
    reflexivity. }
  rewrite (nth_lookup_Some _ _ 0 _ Hq).
  rewrite (dot_sum_below (length P) Pi ti (HProws _ _ HPi) (Htrows _ _ Hti)).
  apply sum_below_ext. intros j _.
  rewrite (entry_lookup _ _ _ _ HPi), (entry_lookup _ _ _ _ Hti).
  reflexivity.
Qed.

Lemma compute_distributions_scale (k : Qc) (K : transition_kernel) :
  compute_distributions (scale_lag_times k K)
  = (fun d => (d.1, map (Qcmult k) d.2)) <$> compute_distributions K.
Proof.
  unfold compute_distributions, milestones. simpl.
  rewrite valid_matrices_scale.
  destruct (valid_matrices _ _ _); [|reflexivity].
  destruct (gauss _ _) as [raw|]; [|reflexivity]. simpl.
  destruct (left_out_holds _ _); [|reflexivity].
  destruct (normalize _) as [pi|]; [|reflexivity]. simpl.
  rewrite residence_weights_scale. reflexivity.
Qed.

(** ** Paths *)

Lemma entry_positive_lt (P : matrix) (i j : nat) :
  0 < entry P i j -> (i < length P)%nat.
Proof.
  intros H. destruct (decide (i < length P)%nat) as [|Hge]; [assumption|].
  unfold entry in H. rewrite (nth_overflow P []) in H by lia.
  destruct j; discriminate H.
Qed.

Lemma reaches_lt (P : matrix) (stop target : list nat) (i : nat) :
  reaches P stop target i -> (i < length P)%nat.
Proof.
  intros [i' _ H|i' j _ H _]; [exact H|exact (entry_positive_lt _ _ _ H)].
Qed.

(** More targets and fewer stops leave every path in place. *)
Lemma reaches_mono (P : matrix) (stop stop' target target' : list nat)
    (i : nat) :
  (forall j, j ∈ target -> j ∈ target') ->
  (forall j, j ∈ stop' -> j ∈ stop) ->
  reaches P stop target i -> reaches P stop' target' i.
Proof.
  intros Ht Hs H. induction H as [i Hin HiN|i j Hstop Hij _ IH].
  - apply reaches_here; auto.
  - apply (reaches_step _ _ _ i j); auto.
Qed.

(** A path to a set ends in one of its milestones. *)
Lemma reaches_one (P : matrix) (stop target : list nat) (i : nat) :
  reaches P stop target i ->
  exists j, j ∈ target /\ reaches P stop [j] i.
Proof.
  intros H. induction H as [i Hin HiN|i j Hstop Hij _ (t & Ht & IH)].
  - exists i. split; [exact Hin|]. apply reaches_here; [left|exact HiN].
  - exists t. split; [exact Ht|]. exact (reaches_step _ _ _ i j Hstop Hij IH).
Qed.

(** A path to the product set can be cut where it first meets the set. *)
Lemma reaches_product_stopped (P : matrix) (product : list nat) (i : nat) :
  reaches P [] product i -> reaches P product product i.
Proof.
  intros H. induction H as [i Hin HiN|i j _ Hij _ IH].
  - apply reaches_here; assumption.
  - destruct (decide (i ∈ product)) as [Hin|Hout].
    + apply reaches_here; [exact Hin|exact (entry_positive_lt _ _ _ Hij)].
    + exact (reaches_step _ _ _ i j Hout Hij IH).
Qed.

(** *** The search *)

Lemma reach_step_spec (P : matrix) (stop R : list nat) (i : nat) :
  In i (reach_step P stop R) <->
  (i < length P)%nat /\
  (i ∈ R \/
   ((i ∉ stop) /\
    exists j, (j < length P)%nat /\ 0 < entry P i j /\ j ∈ R)).
Proof.
  unfold reach_step. rewrite filter_In, in_seq. split.
  - intros [Hi H]. split; [lia|].
    apply orb_prop in H as [H|H].
    + left. exact (bool_decide_eq_true_1 _ H).
    + right. apply andb_prop in H as [Hs He].
      apply negb_true_iff, bool_decide_eq_false_1 in Hs.
      split; [exact Hs|].
      apply existsb_exists in He as (j & Hj & He).
      apply in_seq in Hj. apply andb_prop in He as [He1 He2].
      exists j. split; [lia|].
      split; eapply bool_decide_eq_true_1; eassumption.
  - intros [Hi H]. split; [lia|].
    destruct H as [H|(Hs & j & Hj & He1 & He2)].
    + rewrite (bool_decide_eq_true_2 _ H). reflexivity.
    + apply orb_true_intro. right.
      rewrite (bool_decide_eq_false_2 _ Hs). simpl.
      apply existsb_exists. exists j. split; [apply in_seq; lia|].
      rewrite (bool_decide_eq_true_2 _ He1), (bool_decide_eq_true_2 _ He2).
      reflexivity.
Qed.

(** A list of milestones without repetition. *)
Local Abbreviation milestone_set P R :=
  (List.NoDup R /\ forall i, In i R -> (i < length P)%nat).

(** A round adds nothing. *)
Local Abbreviation closed P stop R :=
  (forall i, In i (reach_step P stop R) -> In i R).

Lemma reach_step_set (P : matrix) (stop R : list nat) :
  milestone_set P (reach_step P stop R).
Proof.
  split.
  - unfold reach_step. apply List.NoDup_filter, List.seq_NoDup.
  - intros i Hi. apply reach_step_spec in Hi. tauto.
Qed.

Lemma reach_step_grows (P : matrix) (stop R : list nat) :
  milestone_set P R -> incl R (reach_step P stop R).
Proof.
  intros [_ HR] i Hi. apply reach_step_spec. split; [exact (HR i Hi)|].
  left. apply list_elem_of_In. exact Hi.
Qed.

Lemma closed_next (P : matrix) (stop R : list nat) :
  closed P stop R -> closed P stop (reach_step P stop R).
Proof.
  intros Hc i Hi. apply reach_step_spec in Hi as [HiN H].
  destruct H as [H|(Hs & j & Hj & He & Hin)].
  - apply list_elem_of_In. exact H.
  - apply reach_step_spec. split; [exact HiN|]. right.
    split; [exact Hs|]. exists j. split; [exact Hj|]. split; [exact He|].
    apply list_elem_of_In, Hc, list_elem_of_In. exact Hin.
Qed.

Lemma start_set (P : matrix) (target : list nat) :
  milestone_set P
    (List.filter (fun i => bool_decide (i ∈ target)) (seq 0 (length P))).
Proof.
  split.
  - apply List.NoDup_filter, List.seq_NoDup.
  - intros i Hi. apply filter_In in Hi as [Hi _]. apply in_seq in Hi. lia.
Qed.

Lemma iter_set (P : matrix) (stop R : list nat) (k : nat) :
  milestone_set P R -> milestone_set P (Nat.iter k (reach_step P stop) R).
Proof.
  intros HR. destruct k as [|k]; [exact HR|]. simpl. apply reach_step_set.
Qed.

Lemma iter_grows (P : matrix) (stop R : list nat) (k : nat) :
  milestone_set P R -> incl R (Nat.iter k (reach_step P stop) R).
Proof.
  intros HR. induction k as [|k IH]; [apply incl_refl|].
  simpl. eapply incl_tran; [exact IH|].
  apply reach_step_grows, iter_set, HR.
Qed.

(** Every round that adds something adds a milestone, so there are at most
    N of them. *)
Lemma iter_closed_or_large (P : matrix) (stop R : list nat) (k : nat) :
  milestone_set P R ->
  closed P stop (Nat.iter k (reach_step P stop) R) \/
  (k <= length (Nat.iter k (reach_step P stop) R))%nat.
Proof.
  intros HR. induction k as [|k IH]; [right; simpl; lia|].
  pose proof (iter_set P stop R k HR) as [Hnd Hlt].
  pose proof (reach_step_grows P stop _ (iter_set P stop R k HR)) as Hinc.
  pose proof (reach_step_set P stop (Nat.iter k (reach_step P stop) R))
    as [Hnd' _].
  simpl. set (S_k := Nat.iter k (reach_step P stop) R) in *.
  destruct IH as [Hc|Hlarge]; [left; apply closed_next, Hc|].
  pose proof (List.NoDup_incl_length Hnd Hinc) as Hle.
  destruct (decide (length (reach_step P stop S_k) <= length S_k)%nat)
    as [Hsame|Hmore]; [|right; lia].
  left. apply closed_next.
  exact (List.NoDup_length_incl Hnd Hsame Hinc).
Qed.

Lemma can_reach_closed (P : matrix) (stop target : list nat) :
  closed P stop (can_reach P stop target).
Proof.
  unfold can_reach.
  pose proof (start_set P target) as HR.
  destruct (iter_closed_or_large P stop _ (length P) HR) as [Hc|Hlarge];
    [exact Hc|].
  pose proof (iter_set P stop _ (length P) HR) as [Hnd Hlt].
  intros i Hi. apply reach_step_spec in Hi as [HiN _].
  assert (Hall : incl (seq 0 (length P))
                   (Nat.iter (length P) (reach_step P stop)
                      (List.filter (fun i => bool_decide (i ∈ target))
                                   (seq 0 (length P))))).
  { apply (List.NoDup_length_incl Hnd).
    - rewrite length_seq. exact Hlarge.
    - intros j Hj. apply in_seq. specialize (Hlt j Hj). lia. }
  apply Hall, in_seq. lia.
Qed.

(** The search finds exactly the milestones that have a path. *)
Lemma can_reach_spec (P : matrix) (stop target : list nat) (i : nat) :
  i ∈ can_reach P stop target <-> reaches P stop target i.
Proof.
  rewrite list_elem_of_In. split.
  - unfold can_reach. generalize (length P) at 1. intros k. revert i.
    induction k as [|k IH]; intros i Hi; simpl in Hi.
    + apply filter_In in Hi as [Hi Ht]. apply in_seq in Hi.
      apply reaches_here; [exact (bool_decide_eq_true_1 _ Ht)|lia].
    + apply reach_step_spec in Hi as [HiN [Hi|(Hs & j & Hj & He & Hin)]].
      * apply IH, list_elem_of_In, Hi.
      * apply (reaches_step _ _ _ i j Hs He).
        apply IH, list_elem_of_In, Hin.
  - intros H. induction H as [i Hin HiN|i j Hstop Hij _ IH].
    + unfold can_reach. apply (iter_grows P stop _ _ (start_set P target)).
      apply filter_In. split; [apply in_seq; lia|].
      apply bool_decide_eq_true_2. exact Hin.
    + apply can_reach_closed. apply reach_step_spec.
      split; [exact (entry_positive_lt _ _ _ Hij)|]. right.
      split; [exact Hstop|]. exists j.
      pose proof (iter_set P stop _ (length P) (start_set P target))
        as [_ Hlt].
      split; [exact (Hlt j IH)|]. split; [exact Hij|].
      apply list_elem_of_In. exact IH.
Qed.

Lemma trapped_spec (P : matrix) (product : list nat) (i : nat) :
  i ∈ trapped P product <->
  (i < length P)%nat /\ ~ reaches P [] product i.
Proof.
  unfold trapped. rewrite list_elem_of_In, filter_In, in_seq.
  rewrite negb_true_iff, bool_decide_eq_false, can_reach_spec.
  split; intros [H1 H2]; (split; [lia|exact H2]).
Qed.

(** A milestone gets the marker exactly when the process started there can
    get trapped before it passes through the product set. *)
Lemma unreachable_spec (P : matrix) (product : list nat) (i : nat) :
  i ∈ unreachable P product <->
  exists j, reaches P product [j] i /\ ~ reaches P [] product j.
Proof.
  unfold unreachable. rewrite can_reach_spec. split.
  - intros H. apply reaches_one in H as (j & Hj & H).
    apply trapped_spec in Hj as [_ Hj]. eauto.
  - intros (j & H & Hj).
    apply (reaches_mono P product product [j]); [|auto|exact H].
    intros t Ht. apply list_elem_of_singleton in Ht. subst t.
    apply trapped_spec. split; [|exact Hj].
    clear Hj. remember (j :: @nil nat) as target eqn:Ht.
    induction H as [i Hin HiN|i t _ _ _ IH]; [|exact IH].
    subst target. apply list_elem_of_singleton in Hin. subst i. exact HiN.
Qed.

Lemma never_trapped_not_unreachable (K : transition_kernel) (i : nat) :
  never_trapped K i -> i ∉ unreachable (tk_P K) (tk_product K).
Proof.
  intros Hn H. apply unreachable_spec in H as (j & H & Hj).
  exact (Hj (Hn j H)).
Qed.

Lemma not_unreachable_never_trapped (K : transition_kernel) (i : nat) :
  i ∉ unreachable (tk_P K) (tk_product K) -> never_trapped K i.
Proof.
  intros Hout j H. unfold reaches_product.
  destruct (decide (j ∈ can_reach (tk_P K) [] (tk_product K)))
    as [Hj|Hj]; [apply can_reach_spec, Hj|].
  exfalso. apply Hout, unreachable_spec. exists j. split; [exact H|].
  intros Hr. apply Hj, can_reach_spec, Hr.
Qed.

(** A product milestone never gets the marker. *)
Lemma product_not_unreachable (P : matrix) (product : list nat) (i : nat) :
  i ∈ product -> (i < length P)%nat -> i ∉ unreachable P product.
Proof.
  intros Hi HiN H. apply unreachable_spec in H as (j & H & Hj).
  apply Hj. inversion H as [i' Hin _|i' t Hstop _ _]; subst.
  - apply list_elem_of_singleton in Hin. subst j.
    apply reaches_here; assumption.
  - contradiction.
Qed.

(** Outside the marked milestones every milestone has a path to the product
    set. *)
Lemma not_unreachable_reaches (P : matrix) (product : list nat) (i : nat) :
  (i < length P)%nat -> i ∉ unreachable P product -> reaches P [] product i.
Proof.
  intros HiN Hi.
  destruct (decide (i ∈ can_reach P [] product)) as [H|H];
    [apply can_reach_spec, H|].
  exfalso. apply Hi, unreachable_spec. exists i.
  split; [apply reaches_here; [left|exact HiN]|].
  intros Hr. apply H, can_reach_spec, Hr.
Qed.

(** ** Local MFPTs with markers *)

Local Abbreviation mark lost :=
  (fun (i : nat) (x : Qc) => if bool_decide (i ∈ lost) then None else Some x).

Lemma local_mfpts_inv (P tau : matrix) (product : list nat)
    (m : list (option Qc)) :
  local_mfpts P tau product = Some m ->
  valid_matrices P tau product = true /\
  exists raw,
    mfpt_solve P tau (product ++ unreachable P product) = Some raw /\
    m = imap (mark (unreachable P product)) raw.
Proof.
  unfold local_mfpts.
  destruct (valid_matrices P tau product); [|discriminate].
  destruct (mfpt_solve _ _ _) as [raw|]; [|discriminate].
  simpl. intros H. inversion H. eauto.
Qed.

(** The numbers behind the markers are the solution of the recursion. *)
Lemma local_mfpts_values (P tau : matrix) (product : list nat)
    (m : list (option Qc)) :
  local_mfpts P tau product = Some m ->
  mfpt_solve P tau (product ++ unreachable P product) = Some (values m) /\
  length m = length P.
Proof.
  intros H. destruct (local_mfpts_inv _ _ _ _ H) as (_ & raw & Hraw & ->).
  destruct (mfpt_solve_recursion _ _ _ _ Hraw) as (Hlen & Hzero & _).
  split; [|rewrite length_imap; exact Hlen].
  rewrite Hraw. f_equal. unfold values. apply list_eq. intros i.
  rewrite list_lookup_fmap, list_lookup_imap.
  destruct (raw !! i) as [x|] eqn:Hx; [|reflexivity]. simpl.
  case_bool_decide as Hi; [|reflexivity]. simpl. f_equal.
  pose proof (lookup_lt_Some _ _ _ Hx) as HiN. rewrite Hlen in HiN.
  rewrite <- (nth_lookup_Some _ _ 0 _ Hx).
  apply Hzero; [apply elem_of_app; right; exact Hi|exact HiN].
Qed.

Lemma local_mfpts_lookup (P tau : matrix) (product : list nat)
    (m : list (option Qc)) (i : nat) :
  local_mfpts P tau product = Some m -> (i < length P)%nat ->
  m !! i = Some (if bool_decide (i ∈ unreachable P product) then None
                 else Some (nth i (values m) 0)).
Proof.
  intros H HiN. destruct (local_mfpts_values _ _ _ _ H) as [_ Hlen].
  destruct (local_mfpts_inv _ _ _ _ H) as (_ & raw & _ & Hm).
  destruct (lookup_lt_is_Some_2 m i ltac:(lia)) as [x Hx].
  assert (Hv : nth i (values m) 0 = default 0 x).
  { unfold values. apply nth_lookup_Some with (d := 0).
    rewrite list_lookup_fmap, Hx. reflexivity. }
  rewrite Hv, Hx. f_equal. rewrite Hm, list_lookup_imap in Hx.
  destruct (raw !! i) as [y|]; [|discriminate]. simpl in Hx.
  inversion Hx. case_bool_decide; reflexivity.
Qed.

Lemma is_finite_spec (P tau : matrix) (product : list nat)
    (m : list (option Qc)) (i : nat) :
  local_mfpts P tau product = Some m ->
  (is_finite m i = true <->
   (i < length P)%nat /\ i ∉ unreachable P product).
Proof.
  intros H. destruct (local_mfpts_values _ _ _ _ H) as [_ Hlen].
  unfold is_finite. destruct (decide (i < length P)%nat) as [HiN|HiN].
  - rewrite (local_mfpts_lookup _ _ _ _ _ H HiN).
    case_bool_decide; split; try tauto; try discriminate.
  - rewrite (lookup_ge_None_2 m i) by lia. split; [discriminate|tauto].
Qed.

(** Valid data always have a vector of local MFPTs: a milestone that cannot
    reach the product set costs a marker, not the vector. *)
Lemma local_mfpts_total (P tau : matrix) (product : list nat) :
  valid_matrices P tau product = true ->
  exists m, local_mfpts P tau product = Some m.
Proof.
  intros Hvalid. unfold local_mfpts. rewrite Hvalid.
  destruct (mfpt_solve_defined
              (TransitionKernel P tau [] (product ++ unreachable P product)))
    as [raw Hraw].
  - apply (valid_matrices_kernel P tau product); [exact Hvalid|].
    intros i Hi. apply elem_of_app. left. exact Hi.
  - intros i HiN. unfold milestones in HiN. unfold reaches_product.
    simpl in *.
    destruct (decide (i ∈ unreachable P product)) as [Hin|Hout].
    + apply reaches_here; [apply elem_of_app; right; exact Hin|exact HiN].
    + apply (reaches_mono P [] [] product); [|auto|].
      * intros j Hj. apply elem_of_app. left. exact Hj.
      * exact (not_unreachable_reaches P product i HiN Hout).
  - simpl in Hraw. rewrite Hraw. simpl. eauto.
Qed.

(** The local MFPT of a product milestone is the number zero, in every
    kernel. *)
Lemma local_mfpts_product_zero (P tau : matrix) (product : list nat)
    (m : list (option Qc)) (j : nat) :
  local_mfpts P tau product = Some m ->
  j ∈ product -> (j < length P)%nat -> m !! j = Some (Some 0).
Proof.
  intros Hm Hj HjN. rewrite (local_mfpts_lookup _ _ _ _ _ Hm HjN).
  rewrite bool_decide_eq_false_2
    by exact (product_not_unreachable P product j Hj HjN).
  destruct (local_mfpts_values _ _ _ _ Hm) as [Hraw _].
  destruct (mfpt_solve_recursion _ _ _ _ Hraw) as (_ & Hzero & _).
  rewrite (Hzero j); [reflexivity| |exact HjN].
  apply elem_of_app. left. exact Hj.
Qed.

(** The number of a milestone outside the product set satisfies the
    first-step recursion of the spec, and every milestone it can move to has
    a number. *)
Lemma local_mfpts_recursion (P tau : matrix) (product : list nat)
    (m : list (option Qc)) (i : nat) (Pi ti : vector) :
  local_mfpts P tau product = Some m ->
  P !! i = Some Pi -> tau !! i = Some ti ->
  i ∉ product -> is_finite m i = true ->
  nth i (values m) 0 = dot Pi ti + dot Pi (values m) /\
  forall j, 0 < entry P i j -> is_finite m j = true.
Proof.
  intros Hm HPi Hti Hi Hfin.
  apply (is_finite_spec _ _ _ _ _ Hm) in Hfin as [HiN Hout].
  destruct (local_mfpts_values _ _ _ _ Hm) as [Hraw _].
  destruct (mfpt_solve_recursion _ _ _ _ Hraw) as (_ & _ & Hrec).
  split.
  - apply (Hrec i Pi ti HPi Hti). intros Hin.
    apply elem_of_app in Hin as [Hin|Hin]; contradiction.
  - intros j Hij. apply (is_finite_spec _ _ _ _ _ Hm).
    destruct (local_mfpts_inv _ _ _ _ Hm) as (Hvalid & _).
    destruct (valid_matrices_spec _ _ _ Hvalid) as (HP & _ & _).
    destruct (is_square_spec _ _ HP) as [_ Hrows].
    split.
    + rewrite (entry_lookup _ _ _ _ HPi) in Hij.
      apply nth_positive_in_range in Hij. rewrite (Hrows _ _ HPi) in Hij.
      exact Hij.
    + intros Hj. apply Hout. apply unreachable_spec.
      apply unreachable_spec in Hj as (t & Ht & Hnot).
      exists t. split; [|exact Hnot].
      exact (reaches_step _ _ _ i j Hi Hij Ht).
Qed.

(** In valid data with positive lag times no number is negative, and the
    number of a milestone outside the product set is positive. *)
Lemma local_mfpts_positive (K : transition_kernel) (m : list (option Qc)) :
  local_mfpts (tk_P K) (tk_tau K) (tk_product K) = Some m ->
  positive_lag_times K ->
  Forall (Qcle 0) (values m) /\
  forall i, is_finite m i = true -> i ∉ tk_product K ->
            0 < nth i (values m) 0.
Proof.
  intros Hm Hlag.
  destruct (local_mfpts_inv _ _ _ _ Hm) as (Hvalid & _).
  destruct (local_mfpts_values _ _ _ _ Hm) as [Hraw _].
  destruct (valid_matrices_kernel _ _ _ []
              (tk_product K ++ unreachable (tk_P K) (tk_product K)) Hvalid)
    as (_ & _ & Hnn & Hsum).
  { intros i Hi. apply elem_of_app. left. exact Hi. }
  simpl in Hnn, Hsum.
  destruct (mfpt_solve_positive _ _ _ _ Hraw Hnn Hsum) as [Hall Hpos].
  { intros i j Hi. apply Hlag. intros Hin. apply Hi, elem_of_app.
    left. exact Hin. }
  split; [exact Hall|]. intros i Hfin Hi.
  apply (is_finite_spec _ _ _ _ _ Hm) in Hfin as [HiN Hout].
  apply Hpos; [exact HiN|]. intros Hin.
  apply elem_of_app in Hin as [Hin|Hin]; contradiction.
Qed.

(** ** The weighted average *)

Lemma Qcmult_nonneg (a b : Qc) : 0 <= a -> 0 <= b -> 0 <= a * b.
Proof. intros Ha Hb. qc_nra. Qed.

Lemma Qcplus_nonneg (a b : Qc) : 0 <= a -> 0 <= b -> 0 <= a + b.
Proof. intros Ha Hb. qc_lra. Qed.

Lemma Qcle_plus_l (a b : Qc) : 0 <= b -> a <= a + b.
Proof. intros Hb. qc_lra. Qed.

Lemma Qcle_plus_r (a b c : Qc) : a <= c -> 0 <= b -> a <= b + c.
Proof. intros Ha Hb. qc_lra. Qed.

Lemma weighted_nonneg (pi v : vector) (s : list nat) :
  Forall (Qcle 0) pi -> Forall (Qcle 0) v ->
  0 <= weight pi s /\ 0 <= weighted_sum pi v s.
Proof.
  intros Hpi Hv. induction s as [|j s [IH1 IH2]].
  - split; apply Qcle_refl.
  - change (weight pi (j :: s)) with (nth j pi 0 + weight pi s).
    change (weighted_sum pi v (j :: s))
      with (nth j pi 0 * nth j v 0 + weighted_sum pi v s).
    pose proof (nth_nonneg pi j Hpi) as H1.
    pose proof (nth_nonneg v j Hv) as H2.
    split; apply Qcplus_nonneg; try assumption.
    apply Qcmult_nonneg; assumption.
Qed.

Lemma weighted_lower (pi v : vector) (s : list nat) (r : nat) :
  Forall (Qcle 0) pi -> Forall (Qcle 0) v -> r ∈ s ->
  nth r pi 0 <= weight pi s /\
  nth r pi 0 * nth r v 0 <= weighted_sum pi v s.
Proof.
  intros Hpi Hv. induction s as [|i s IH]; intros Hr.
  - apply elem_of_nil in Hr. contradiction.
  - change (weight pi (i :: s)) with (nth i pi 0 + weight pi s).
    change (weighted_sum pi v (i :: s))
      with (nth i pi 0 * nth i v 0 + weighted_sum pi v s).
    destruct (weighted_nonneg pi v s Hpi Hv) as [Hw1 Hw2].
    pose proof (nth_nonneg pi i Hpi) as H1.
    pose proof (nth_nonneg v i Hv) as H2.
    pose proof (Qcmult_nonneg _ _ H1 H2) as H3.
    apply elem_of_cons in Hr as [->|Hr].
    + split; apply Qcle_plus_l; assumption.
    + destruct (IH Hr) as [IH1 IH2].
      split; apply Qcle_plus_r; assumption.
Qed.

(** The average is defined and positive as soon as one reactant milestone of
    positive weight has a positive number, no number being negative. *)
Lemma global_mfpt_positive (m : list (option Qc)) (reactant : list nat)
    (pi : vector) (r : nat) :
  Forall (fun i => (i < length m)%nat) reactant -> length pi = length m ->
  Forall (Qcle 0) pi -> Forall (Qcle 0) (values m) ->
  r ∈ reactant -> is_finite m r = true ->
  0 < nth r pi 0 -> 0 < nth r (values m) 0 ->
  exists g, global_mfpt m reactant pi = Some g /\ 0 < g.
Proof.
  intros Hrange Hlen Hpi Hv Hr Hfin Hw Hm. unfold global_mfpt.
  assert (Hb : forallb (fun i => bool_decide (i < length m)%nat) reactant
               = true).
  { apply forallb_forall. intros i Hi. apply bool_decide_eq_true_2.
    rewrite List.Forall_forall in Hrange. exact (Hrange i Hi). }
  rewrite Hb, (bool_decide_eq_true_2 _ Hlen). simpl.
  assert (Hin : r ∈ List.filter (is_finite m) reactant).
  { apply list_elem_of_In, filter_In. split; [|exact Hfin].
    apply list_elem_of_In. exact Hr. }
  destruct (weighted_lower pi (values m) _ r Hpi Hv Hin) as [H1 H2].
  pose proof (Qcmult_pos_pos _ _ Hw Hm) as H3.
  set (w := weight pi (List.filter (is_finite m) reactant)) in *.
  set (ws := weighted_sum pi (values m) (List.filter (is_finite m) reactant))
    in *.
  assert (Hwpos : 0 < w) by exact (Qclt_le_trans _ _ _ Hw H1).
  assert (Hwspos : 0 < ws) by exact (Qclt_le_trans _ _ _ H3 H2).
  destruct (decide (w = 0)) as [H0|_].
  { rewrite H0 in Hwpos. discriminate Hwpos. }
  eexists. split; [reflexivity|]. unfold Qcdiv.
  apply Qcmult_pos_pos; [exact Hwspos|]. apply Qcinv_pos. exact Hwpos.
Qed.

(** With a single reactant milestone the average is the number of that
    milestone. *)
Lemma global_mfpt_single (m : list (option Qc)) (r : nat) (x : Qc)
    (pi : vector) :
  m !! r = Some (Some x) -> length pi = length m -> nth r pi 0 <> 0 ->
  global_mfpt m [r] pi = Some x.
Proof.
  intros Hr Hlen Hw. unfold global_mfpt.
  pose proof (lookup_lt_Some _ _ _ Hr) as HrN.
  cbn [forallb]. rewrite (bool_decide_eq_true_2 _ HrN).
  rewrite (bool_decide_eq_true_2 _ Hlen). cbn [andb List.filter].
  assert (Hf : is_finite m r = true)
    by (unfold is_finite; rewrite Hr; reflexivity).
  rewrite Hf. cbn [weight weighted_sum foldr].
  assert (Hv : nth r (values m) 0 = x).
  { unfold values. apply nth_lookup_Some with (d := 0).
    rewrite list_lookup_fmap, Hr. reflexivity. }
  rewrite Hv.
  destruct (decide (nth r pi 0 + 0 = 0)) as [H0|_].
  - exfalso. apply Hw. rewrite Qcplus_0_r in H0. exact H0.
  - f_equal. field. exact Hw.
Qed.

(** ** Scaling the lag times *)

Local Abbreviation scaled k :=
  (map (fun x : option Qc => Qcmult k <$> x)).

Lemma local_mfpts_scale (k : Qc) (P tau : matrix) (product : list nat) :
  local_mfpts P (map (map (Qcmult k)) tau) product
  = scaled k <$> local_mfpts P tau product.
Proof.
  unfold local_mfpts. rewrite valid_matrices_scale.
  destruct (valid_matrices P tau product); [|reflexivity].
  rewrite mfpt_solve_scale.
  destruct (mfpt_solve _ _ _) as [raw|]; [|reflexivity].
  simpl. f_equal. apply list_eq. intros i.
  rewrite list_lookup_imap, !list_lookup_fmap, list_lookup_imap.
  destruct (raw !! i) as [x|]; [|reflexivity]. simpl.
  case_bool_decide; reflexivity.
Qed.

Lemma is_finite_scale (k : Qc) (m : list (option Qc)) (i : nat) :
  is_finite (scaled k m) i = is_finite m i.
Proof.
  unfold is_finite. rewrite list_lookup_fmap.
  destruct (m !! i) as [[x|]|]; reflexivity.
Qed.

Lemma values_scale (k : Qc) (m : list (option Qc)) :
  values (scaled k m) = map (Qcmult k) (values m).
Proof.
  unfold values. rewrite !map_map. apply map_ext.
  intros [x|]; simpl; [reflexivity|ring].
Qed.

Lemma global_mfpt_scale (k : Qc) (m : list (option Qc))
    (reactant : list nat) (pi : vector) :
  global_mfpt (scaled k m) reactant pi
  = Qcmult k <$> global_mfpt m reactant pi.
Proof.
  unfold global_mfpt. rewrite length_map.
  destruct (forallb _ reactant && _); [|reflexivity].
  rewrite (filter_ext (is_finite (scaled k m)) (is_finite m))
    by apply is_finite_scale.
  destruct (decide (weight pi _ = 0)); [reflexivity|].
  simpl. f_equal. rewrite values_scale, weighted_sum_scale.
  unfold Qcdiv. ring.
Qed.

(** Scaling every lag time by [k] scales the GlobalMFPT by [k], and leaves an
    undefined GlobalMFPT undefined. *)
Lemma GlobalMFPT_scale (k : Qc) (K : transition_kernel) (pi : vector) :
  GlobalMFPT (scale_lag_times k K) pi = Qcmult k <$> GlobalMFPT K pi.
Proof.
  unfold GlobalMFPT. simpl. rewrite local_mfpts_scale.
  destruct (local_mfpts _ _ _) as [m|]; [|reflexivity].
  simpl. apply global_mfpt_scale.
Qed.

(** ** The statements on the numerical core *)



(** The solve on other kernels: on the chain all the weight is on the
    absorbing product milestone; two recurrent classes, or a product row
    left empty, leave no stationary distribution to return. *)
Lemma compute_distributions_examples :
  compute_distributions chain = Some ([0; 0; 1], [of_Z 2; of_Z 3; 0]) /\
  compute_distributions split_kernel = None /\
  valid_matrices (tk_P open_chain) (tk_tau open_chain) (tk_product open_chain)
    = true /\
  compute_distributions open_chain = None.
Proof.
  split; [by_computation|]. split; [by_computation|].
  split; [reflexivity|by_computation].
Qed.


Lemma cycle_positive_lag_times (t01 t10 : Qc) :
  0 < t01 -> positive_lag_times (cycle t01 t10).
Proof.
  intros H01 i j Hi Hp. destruct i as [|[|i]].
  - destruct j as [|[|j]]; simpl in *;
      [discriminate Hp|exact H01|destruct j; discriminate Hp].
  - exfalso. apply Hi. left.
  - exfalso. unfold entry in Hp. simpl in Hp.
    destruct i, j; discriminate Hp.
Qed.

Lemma cycle_reaches_product (t01 t10 : Qc) :
  reaches_product (cycle t01 t10) 0.
Proof.
  apply (reaches_step _ _ _ 0%nat 1%nat);
    [apply not_elem_of_nil|reflexivity|].
  apply reaches_here; [left|simpl; lia].
Qed.

(** A milestone that the search has not marked cannot get trapped. *)
Lemma unmarked_never_trapped (K : transition_kernel) (i : nat) :
  bool_decide (i ∈ unreachable (tk_P K) (tk_product K)) = false ->
  never_trapped K i.
Proof.
  intros H. apply not_unreachable_never_trapped.
  exact (bool_decide_eq_false_1 _ H).
Qed.



(** A reactant milestone that cannot reach the product set is marked, and
    the average is taken over the other reactant milestones. *)
Lemma two_reactants_GlobalMFPT :
  local_mfpts (tk_P two_reactants) (tk_tau two_reactants)
    (tk_product two_reactants) = Some [Some (of_Z 4); None; Some 0] /\
  GlobalMFPT two_reactants [half; half; 0] = Some (of_Z 4).
Proof. split; by_computation. Qed.



(* ================================================================== *)
(** * Further properties of [analyze] *)

Close Scope Qc_scope.

Section OrchestrationMore.

Context {Kernel Matrices Distributions Aux Content : Type}.
Variable api : miles_api Kernel Matrices Distributions Aux Content.
Variables stationary_distributions transition_matrix lag_time_matrix
          stationary_flux local_mfpts stationary_probability : string.

Local Abbreviation this_analysis :=
  (analyze api stationary_distributions transition_matrix lag_time_matrix
           stationary_flux local_mfpts stationary_probability).

Local Abbreviation this_matrices_save :=
  (MatricesSave transition_matrix lag_time_matrix stationary_flux local_mfpts
                stationary_probability).

Local Abbreviation this_save_distributions d :=
  (SaveDistributions d stationary_distributions).

Ltac execution w :=
  rewrite (run_analyze api stationary_distributions transition_matrix
             lag_time_matrix stationary_flux local_mfpts
             stationary_probability w);
  destruct (TransitionKernel_save_distributions api w)
    as [[[]|?e] ?w1] eqn:?Hksd;
  [ destruct (TransitionKernel_compute_distributions api w1)
      as [[[?d ?q]|?e] ?w2] eqn:?Hcd;
    [ destruct (save_distributions api d stationary_distributions w2)
        as [[[]|?e] ?w3] eqn:?Hsd;
      [ destruct (Matrices_save api transition_matrix lag_time_matrix
                    stationary_flux local_mfpts stationary_probability w3)
          as [[[]|?e] ?w4] eqn:?Hms | ] | ] | ].

(** X1: [analyze] handles no exception.  It raises [e] exactly when one of
    its four calls, all earlier ones having returned, raises [e]; the world
    is then the one that call left, and no later call has been made. *)
Theorem analyze_raises_first_failure
    (w w' : world Kernel Content) (e : exn) (l : list (call Distributions)) :
  run this_analysis w = (Raise e, w', l) <->
  (TransitionKernel_save_distributions api w = (Raise e, w') /\
   l = [KernelSaveDistributions]) \/
  exists w1,
    TransitionKernel_save_distributions api w = (Return tt, w1) /\
    ((TransitionKernel_compute_distributions api w1 = (Raise e, w') /\
      l = [KernelSaveDistributions; KernelComputeDistributions]) \/
     exists d q w2,
       TransitionKernel_compute_distributions api w1 = (Return (d, q), w2) /\
       ((save_distributions api d stationary_distributions w2
           = (Raise e, w') /\
         l = [KernelSaveDistributions; KernelComputeDistributions;
              this_save_distributions d]) \/
        exists w3,
          save_distributions api d stationary_distributions w2
            = (Return tt, w3) /\
          Matrices_save api transition_matrix lag_time_matrix stationary_flux
            local_mfpts stationary_probability w3 = (Raise e, w') /\
          l = [KernelSaveDistributions; KernelComputeDistributions;
               this_save_distributions d; this_matrices_save])).
Proof.
  split.
  - execution w; intros H; inversion H; subst; clear H.
    + right. exists w1. split; [reflexivity|]. right. exists d, q, w2.
      split; [exact Hcd|]. right. exists w3. auto.
    + right. exists w1. split; [reflexivity|]. right. exists d, q, w2.
      split; [exact Hcd|]. left. auto.
    + right. exists w1. split; [reflexivity|]. left. auto.
    + left. auto.
  - rewrite (run_analyze api stationary_distributions transition_matrix
               lag_time_matrix stationary_flux local_mfpts
               stationary_probability w).
    intros [[H1 ->]|(w1 & H1 & [[H2 ->]|(d & q & w2 & H2 &
              [[H3 ->]|(w3 & H3 & H4 & ->)])])].
    + rewrite H1. reflexivity.
    + rewrite H1, H2. reflexivity.
    + rewrite H1, H2, H3. reflexivity.
    + rewrite H1, H2, H3, H4. reflexivity.
Qed.

(** X2: whatever relation between worlds every operation of the package
    respects, and that is transitive, holds between the world [analyze]
    starts in and the one it ends in, whether it returns or raises:
    [analyze] adds no effect of its own to those of its calls. *)
Theorem analyze_respects
    (R : world Kernel Content -> world Kernel Content -> Prop)
    (w : world Kernel Content) :
  (forall x y z, R x y -> R y z -> R x z) ->
  operations_respect R api ->
  R w (run this_analysis w).1.2.
Proof.
  intros Htrans (Hksd' & Hcd' & Hsd' & Hms').
  pose proof (Hksd' w) as R1. execution w; simpl in *.
  - pose proof (Hcd' w1) as R2. rewrite Hcd in R2.
    pose proof (Hsd' d stationary_distributions w2) as R3.
    rewrite Hsd in R3.
    pose proof (Hms' transition_matrix lag_time_matrix stationary_flux
                  local_mfpts stationary_probability w3) as R4.
    rewrite Hms in R4. simpl in *. eauto.
  - pose proof (Hcd' w1) as R2. rewrite Hcd in R2.
    pose proof (Hsd' d stationary_distributions w2) as R3.
    rewrite Hsd in R3.
    pose proof (Hms' transition_matrix lag_time_matrix stationary_flux
                  local_mfpts stationary_probability w3) as R4.
    rewrite Hms in R4. simpl in *. eauto.
  - pose proof (Hcd' w1) as R2. rewrite Hcd in R2.
    pose proof (Hsd' d stationary_distributions w2) as R3.
    rewrite Hsd in R3. simpl in *. eauto.
  - pose proof (Hcd' w1) as R2. rewrite Hcd in R2. simpl in *. eauto.
  - exact R1.
Qed.

(** X3: in every execution, whether it returns or raises, the operations
    called are the first one, two, three or four of the kernel's
    [save_distributions()], the solve, [save_distributions] and
    [matrices.save], in this order: no operation is called twice, whatever
    its arguments, and an execution that returns has called each of the four
    exactly once. *)
Theorem analyze_calls_once_each (w : world Kernel Content) :
  let '(r, _, l) := run this_analysis w in
  let called := map operation_of l in
  List.NoDup called /\
  (exists n, (1 <= n <= 4)%nat /\ called = take n operations_in_order) /\
  (forall v, r = Return v -> called = operations_in_order).
Proof.
  execution w; simpl; (split; [|split]);
    try (intros; first [reflexivity|discriminate]);
    try (repeat (apply List.NoDup_cons;
                 [simpl; intros Hin; intuition discriminate|]);
         apply List.NoDup_nil).
  - exists 4%nat. split; [lia|reflexivity].
  - exists 4%nat. split; [lia|reflexivity].
  - exists 3%nat. split; [lia|reflexivity].
  - exists 2%nat. split; [lia|reflexivity].
  - exists 1%nat. split; [lia|reflexivity].
Qed.

End OrchestrationMore.

(** X4: the auxiliary quantity [q] that the solve returns is bound and never
    used: with any other value in its place, [analyze] makes the same calls
    with the same arguments, leaves the same world and gives the same
    outcome. *)
Theorem analyze_ignores_aux
    {Kernel Matrices Distributions Aux Aux' Content : Type}
    (g : Aux -> Aux')
    (api : miles_api Kernel Matrices Distributions Aux Content)
    (sd tm lt sf lm sp : string) (w : world Kernel Content) :
  run (analyze (with_aux g api) sd tm lt sf lm sp) w
  = run (analyze api sd tm lt sf lm sp) w.
Proof.
  rewrite !run_analyze. simpl.
  destruct (TransitionKernel_save_distributions api w) as [[[]|e1] w1];
    [|reflexivity].
  destruct (TransitionKernel_compute_distributions api w1)
    as [[[d q]|e2] w2]; reflexivity.
Qed.

(** X5: a failure of the kernel's [save_distributions()] or of the solve
    does not depend on any of the six paths, and a failure of
    [save_distributions] does not depend on the five paths of
    [matrices.save]: the execution with other such paths ends with the same
    exception, world and calls. *)
Theorem analyze_early_failure_ignores_paths
    {Kernel Matrices Distributions Aux Content : Type}
    (api : miles_api Kernel Matrices Distributions Aux Content)
    (sd tm lt sf lm sp sd' tm' lt' sf' lm' sp' : string)
    (w w' : world Kernel Content) (e : exn)
    (l : list (call Distributions)) :
  run (analyze api sd tm lt sf lm sp) w = (Raise e, w', l) ->
  ((length l <= 2)%nat ->
   run (analyze api sd' tm' lt' sf' lm' sp') w = (Raise e, w', l)) /\
  ((length l <= 3)%nat ->
   run (analyze api sd tm' lt' sf' lm' sp') w = (Raise e, w', l)).
Proof.
  rewrite !run_analyze.
  destruct (TransitionKernel_save_distributions api w) as [[[]|e1] w1];
    [|intros H; split; intros _; exact H].
  destruct (TransitionKernel_compute_distributions api w1)
    as [[[d q]|e2] w2]; [|intros H; split; intros _; exact H].
  destruct (save_distributions api d sd w2) as [[[]|e3] w3].
  - destruct (Matrices_save api tm lt sf lm sp w3) as [[[]|e4] w4];
      intros H; inversion H; subst; split; simpl; lia.
  - intros H; inversion H; subst. split; simpl; [lia|reflexivity].
Qed.

(** *** The example implementation again *)

(** With an empty name for the last tensor, [matrices.save] raises after it
    has written the other four: [analyze] raises the same exception, and
    the files written so far stay. *)
Lemma analyze_raises_first_failure_witness :
  exists w',
    run (analyze example_api "distributions.dat" "transition.mtx"
           "lag_time.mtx" "flux.dat" "local_mfpts.dat" "") solvable_world
    = (Raise PersistenceError, w',
       [KernelSaveDistributions; KernelComputeDistributions;
        SaveDistributions [0.5; 0.5]%float "distributions.dat";
        MatricesSave "transition.mtx" "lag_time.mtx" "flux.dat"
                     "local_mfpts.dat" ""]) /\
    files w' !! "distributions.dat" = Some [[0.5; 0.5]]%float /\
    files w' !! "local_mfpts.dat" = Some [[2; 0]]%float /\
    files w' !! "probability.dat" = None.
Proof.
  eexists. split.
  - apply (proj2 (analyze_raises_first_failure example_api
                    "distributions.dat" "transition.mtx" "lag_time.mtx"
                    "flux.dat" "local_mfpts.dat" "" solvable_world _
                    PersistenceError _)).
    right. eexists. split; [reflexivity|].
    right. eexists _, _, _. split; [reflexivity|].
    right. eexists. split; [reflexivity|]. split; reflexivity.
  - repeat split; vm_compute; reflexivity.
Defined.

Lemma write_file_keeps_files path table (w : example_world) :
  keeps_files w (write_file path table w).2.
Proof.
  unfold keeps_files, write_file.
  destruct (decide (path = "")); simpl; [reflexivity|].
  rewrite dom_insert. set_solver.
Qed.

Lemma and_then_keeps_files (a b : example_operation unit) :
  (forall w, keeps_files w (a w).2) -> (forall w, keeps_files w (b w).2) ->
  forall w, keeps_files w (and_then a b w).2.
Proof.
  intros Ha Hb w. unfold and_then. specialize (Ha w).
  destruct (a w) as [[[]|e] w1]; simpl in *; [|exact Ha].
  specialize (Hb w1). unfold keeps_files in *. set_solver.
Qed.

Lemma example_api_keeps_files : operations_respect keeps_files example_api.
Proof.
  repeat split; simpl.
  - intros w. apply write_file_keeps_files.
  - intros w. unfold ex_compute_distributions, keeps_files.
    destruct (ex_reducible (kernel w)); reflexivity.
  - intros d p w. apply write_file_keeps_files.
  - intros tp lp fp mp pp w. unfold ex_matrices_save.
    repeat apply and_then_keeps_files; intros; apply write_file_keeps_files.
Qed.

(** The example operations remove no file, so a file that was on the disk
    before the analysis is there after it. *)
Lemma analyze_respects_witness :
  "notes.txt" ∈ dom (files (run example_analysis noted_world).1.2).
Proof.
  assert (H : keeps_files noted_world (run example_analysis noted_world).1.2).
  { apply (analyze_respects example_api "distributions.dat" "transition.mtx"
             "lag_time.mtx" "flux.dat" "local_mfpts.dat" "probability.dat"
             keeps_files noted_world).
    - unfold keeps_files. intros x y z Hxy Hyz. set_solver.
    - exact example_api_keeps_files. }
  apply H. unfold noted_world. simpl. rewrite dom_singleton. set_solver.
Defined.

(** The execution on the reducible kernel stops after two calls, whatever
    the paths. *)
Lemma analyze_early_failure_ignores_paths_witness :
  exists w',
    run (analyze example_api "a" "b" "c" "d" "e" "f") reducible_world
    = (Raise SolverError, w',
       [KernelSaveDistributions; KernelComputeDistributions]).
Proof.
  eexists.
  apply (proj1 (analyze_early_failure_ignores_paths example_api
                  "distributions.dat" "transition.mtx" "lag_time.mtx"
                  "flux.dat" "local_mfpts.dat" "probability.dat"
                  "a" "b" "c" "d" "e" "f" reducible_world _ SolverError _
                  eq_refl)).
  simpl. lia.
Defined.

(** On the solvable kernel each of the four operations is called once, on
    the reducible one only the first two. *)
Lemma analyze_calls_once_each_witness :
  map operation_of (run example_analysis solvable_world).2
    = operations_in_order /\
  List.NoDup (map operation_of (run example_analysis reducible_world).2).
Proof.
  split.
  - pose proof (analyze_calls_once_each example_api "distributions.dat"
                  "transition.mtx" "lag_time.mtx" "flux.dat"
                  "local_mfpts.dat" "probability.dat" solvable_world) as H.
    destruct (run example_analysis solvable_world) as [[r w'] l] eqn:Hrun.
    apply (proj2 (proj2 H) 2%float).
    vm_compute in Hrun. congruence.
  - pose proof (analyze_calls_once_each example_api "distributions.dat"
                  "transition.mtx" "lag_time.mtx" "flux.dat"
                  "local_mfpts.dat" "probability.dat" reducible_world) as H.
    destruct (run example_analysis reducible_world) as [[r w'] l].
    exact (proj1 H).
Defined.
